(** * A shallow embedding of js-analysis: the pattern engine, the rewrite
    driver of [src/lib/rewriteCode.js] and the output helper of
    [src/lib/io.js]. *)

From Stdlib Require Import String Ascii List Bool ZArith Lia.
From Stdlib Require DecimalString.
Import ListNotations.
Open Scope string_scope.

(* ------------------------------------------------------------------ *)
(** ** Syntax trees *)

(** An ESTree node as the JavaScript code sees it: an object with a
    [type] and named fields.  A field holds a scalar, [null], one child
    node or an array of child nodes.  Source positions are left out. *)
Inductive node : Type :=
| Node : string -> list (string * value) -> node
with value : Type :=
| VStr : string -> value
| VNum : Z -> value
| VBool : bool -> value
| VNull : value
| VNode : node -> value
| VList : list node -> value.

Definition node_type (n : node) : string :=
  match n with Node k _ => k end.

Definition node_fields (n : node) : list (string * value) :=
  match n with Node _ fs => fs end.

(** [node[key]], [undefined] being [None]. *)
Definition get_field (key : string) (n : node) : option value :=
  match find (fun kv => String.eqb (fst kv) key) (node_fields n) with
  | Some (_, v) => Some v
  | None => None
  end.

(** Structural equality of nodes, the one the matcher uses. *)
Fixpoint node_eqb (a b : node) {struct a} : bool :=
  match a, b with
  | Node ka fa, Node kb fb =>
      String.eqb ka kb &&
      (fix fields_eqb (xs ys : list (string * value)) : bool :=
         match xs, ys with
         | [], [] => true
         | (k1, v1) :: xs', (k2, v2) :: ys' =>
             String.eqb k1 k2 &&
             (match v1, v2 with
              | VStr s1, VStr s2 => String.eqb s1 s2
              | VNum z1, VNum z2 => Z.eqb z1 z2
              | VBool b1, VBool b2 => Bool.eqb b1 b2
              | VNull, VNull => true
              | VNode c1, VNode c2 => node_eqb c1 c2
              | VList l1, VList l2 =>
                  (fix list_eqb (l1 l2 : list node) : bool :=
                     match l1, l2 with
                     | [], [] => true
                     | c1 :: l1', c2 :: l2' => node_eqb c1 c2 && list_eqb l1' l2'
                     | _, _ => false
                     end) l1 l2
              | _, _ => false
              end) && fields_eqb xs' ys'
         | _, _ => false
         end) fa fb
  end.

(* ------------------------------------------------------------------ *)
(** ** [ensureParentDirExists] (src/lib/io.js) *)

Module Io.

Definition slash : ascii := "/"%char.

(** Node's [path.posix.dirname], as in Node's [lib/path.js]: scan from the
    last character down to index 1 for the end of the parent part. *)
Fixpoint dirname_scan (p : string) (i : nat) (matchedSlash : bool) : option nat :=
  match i with
  | O => None
  | S j =>
      if Ascii.eqb (match String.get i p with Some c => c | None => " "%char end) slash
      then (if negb matchedSlash then Some i else dirname_scan p j matchedSlash)
      else dirname_scan p j false
  end.

Definition dirname (p : string) : string :=
  match String.length p with
  | O => "."
  | S last =>
      let hasRoot := match String.get 0 p with
                     | Some c => Ascii.eqb c slash | None => false end in
      match dirname_scan p last true with
      | None => if hasRoot then "/" else "."
      | Some e =>
          if hasRoot && Nat.eqb e 1 then "//" else String.substring 0 e p
      end
  end.

(** The file system, as far as [existsSync] and [mkdirSync] see it: the
    list of existing directories. *)
Definition fsys := list string.

Definition existsSync (fs : fsys) (d : string) : bool :=
  existsb (String.eqb d) fs.

Definition mkdirSync (fs : fsys) (d : string) : fsys := (fs ++ [d])%list.

(** [ensureParentDirExists filepath].  The recursion is on [dirname], which
    does not shrink every path, so the call carries fuel; [None] is a call
    that has not returned once the fuel is spent. *)
Fixpoint ensureParentDirExists (fuel : nat) (fs : fsys) (filepath : string)
  : option fsys :=
  match fuel with
  | O => None
  | S fuel' =>
      let dir := dirname filepath in
      if String.eqb dir "" || String.eqb dir "." then Some fs
      else
        match ensureParentDirExists fuel' fs dir with
        | None => None
        | Some fs' => Some (if existsSync fs' dir then fs' else mkdirSync fs' dir)
        end
  end.

End Io.

(* ------------------------------------------------------------------ *)
(** ** Node constructors, in the field order esprima produces *)

Definition Identifier (name : string) : node :=
  Node "Identifier" [("name", VStr name)].
Definition NumLiteral (z : Z) : node := Node "Literal" [("value", VNum z)].
Definition BoolLiteral (b : bool) : node := Node "Literal" [("value", VBool b)].
Definition UnaryExpression (op : string) (arg : node) : node :=
  Node "UnaryExpression"
       [("operator", VStr op); ("argument", VNode arg); ("prefix", VBool true)].
Definition LogicalExpression (op : string) (l r : node) : node :=
  Node "LogicalExpression" [("operator", VStr op); ("left", VNode l); ("right", VNode r)].
Definition ConditionalExpression (t c a : node) : node :=
  Node "ConditionalExpression"
       [("test", VNode t); ("consequent", VNode c); ("alternate", VNode a)].
Definition SequenceExpression (es : list node) : node :=
  Node "SequenceExpression" [("expressions", VList es)].
Definition MemberExpression (o p : node) : node :=
  Node "MemberExpression" [("computed", VBool false); ("object", VNode o); ("property", VNode p)].
Definition Property (k v : node) : node :=
  Node "Property" [("key", VNode k); ("computed", VBool false); ("value", VNode v);
                   ("kind", VStr "init"); ("method", VBool false); ("shorthand", VBool false)].
Definition ObjectExpression (ps : list node) : node :=
  Node "ObjectExpression" [("properties", VList ps)].
Definition ExpressionStatement (e : node) : node :=
  Node "ExpressionStatement" [("expression", VNode e)].
Definition IfStatement (t c : node) (a : value) : node :=
  Node "IfStatement" [("test", VNode t); ("consequent", VNode c); ("alternate", a)].
Definition WhileStatement (t b : node) : node :=
  Node "WhileStatement" [("test", VNode t); ("body", VNode b)].
Definition DoWhileStatement (b t : node) : node :=
  Node "DoWhileStatement" [("body", VNode b); ("test", VNode t)].
Definition ForStatement (i t u : value) (b : node) : node :=
  Node "ForStatement" [("init", i); ("test", t); ("update", u); ("body", VNode b)].
Definition ForInStatement (l r b : node) : node :=
  Node "ForInStatement" [("left", VNode l); ("right", VNode r); ("body", VNode b)].
Definition ForOfStatement (l r b : node) : node :=
  Node "ForOfStatement" [("left", VNode l); ("right", VNode r); ("body", VNode b)].
Definition BlockStatement (body : list node) : node :=
  Node "BlockStatement" [("body", VList body)].
Definition Program (body : list node) : node := Node "Program" [("body", VList body)].
Definition ReturnStatement (e : node) : node :=
  Node "ReturnStatement" [("argument", VNode e)].
Definition FunctionDeclaration (id : node) (params : list node) (body : node) : node :=
  Node "FunctionDeclaration"
       [("id", VNode id); ("params", VList params); ("body", VNode body);
        ("generator", VBool false); ("async", VBool false)].
Definition VariableDeclarator (id : node) : node :=
  Node "VariableDeclarator" [("id", VNode id); ("init", VNull)].
Definition VariableDeclaration (kind : string) (ds : list node) : node :=
  Node "VariableDeclaration" [("declarations", VList ds); ("kind", VStr kind)].

(* ------------------------------------------------------------------ *)
(** ** Pattern engine (src/lib/patterns.js, not among the sources) *)

Module Patterns.

(** Modelled from the spec: the three placeholder kinds of a compiled
    pattern (section 3 and 4.1 of the spec).  A placeholder carries its
    key, the family and index of the snippet's identifier
    ([placeholder1], [statement2], [expression3]), and its modifier. *)
Definition GenericPlaceholder (key : string) : node :=
  Node "GenericPlaceholder" [("name", VStr key)].
Definition StatementPlaceholder (key : string) (expectMultiLine : bool) : node :=
  Node "StatementPlaceholder" [("name", VStr key); ("expectMultiLine", VBool expectMultiLine)].
Definition ExpressionPlaceholder (key : string) (allowDeclarations : bool) : node :=
  Node "ExpressionPlaceholder" [("name", VStr key); ("allowDeclarations", VBool allowDeclarations)].

(** Modelled from the spec: the statement kinds ("statement position"). *)
Definition statement_kinds : list string :=
  ["ExpressionStatement"; "BlockStatement"; "EmptyStatement"; "DebuggerStatement";
   "WithStatement"; "ReturnStatement"; "LabeledStatement"; "BreakStatement";
   "ContinueStatement"; "IfStatement"; "SwitchStatement"; "ThrowStatement";
   "TryStatement"; "WhileStatement"; "DoWhileStatement"; "ForStatement";
   "ForInStatement"; "ForOfStatement"; "FunctionDeclaration";
   "VariableDeclaration"; "ClassDeclaration"].

(** Modelled from the spec: the compound/control-flow family accepted by
    a [.multiLine] statement placeholder (conditional, loop forms, block,
    switch, try, labeled, nested function). *)
Definition multiline_kinds : list string :=
  ["IfStatement"; "WhileStatement"; "DoWhileStatement"; "ForStatement";
   "ForInStatement"; "ForOfStatement"; "BlockStatement"; "SwitchStatement";
   "TryStatement"; "LabeledStatement"; "FunctionDeclaration"].

(** Modelled from the spec: the expression kinds. *)
Definition expression_kinds : list string :=
  ["Identifier"; "Literal"; "ThisExpression"; "ArrayExpression"; "ObjectExpression";
   "FunctionExpression"; "ArrowFunctionExpression"; "ClassExpression";
   "UnaryExpression"; "UpdateExpression"; "BinaryExpression";
   "AssignmentExpression"; "LogicalExpression"; "MemberExpression";
   "ConditionalExpression"; "CallExpression"; "NewExpression";
   "SequenceExpression"; "TemplateLiteral"; "TaggedTemplateExpression";
   "YieldExpression"; "AwaitExpression"; "MetaProperty"].

(** Modelled from the spec: the declaration forms an [.orDeclaration]
    expression placeholder also accepts. *)
Definition declaration_kinds : list string := ["VariableDeclaration"].

Definition kind_in (ks : list string) (n : node) : bool :=
  existsb (String.eqb (node_type n)) ks.

Definition is_statement := kind_in statement_kinds.
Definition is_multiline := kind_in multiline_kinds.
Definition is_expression := kind_in expression_kinds.
Definition is_declaration := kind_in declaration_kinds.

(** Modelled from the spec: a binding environment, placeholder key to a
    name (generic placeholders) or a subtree (statement and expression
    placeholders). *)
Inductive binding : Type :=
| BName : string -> binding
| BNode : node -> binding.

Definition env := list (string * binding).

Fixpoint lookup (k : string) (e : env) : option binding :=
  match e with
  | [] => None
  | (k', b) :: e' => if String.eqb k k' then Some b else lookup k e'
  end.

Definition binding_eqb (a b : binding) : bool :=
  match a, b with
  | BName x, BName y => String.eqb x y
  | BNode x, BNode y => node_eqb x y
  | _, _ => false
  end.

(** Modelled from the spec: "bind (or re-check) under the placeholder's
    key"; a second occurrence must bind an equal value. *)
Definition bind (k : string) (b : binding) (e : env) : option env :=
  match lookup k e with
  | Some b' => if binding_eqb b b' then Some e else None
  | None => Some ((k, b) :: e)
  end.

Definition is_placeholder_kind (k : string) : bool :=
  String.eqb k "GenericPlaceholder" || String.eqb k "StatementPlaceholder"
  || String.eqb k "ExpressionPlaceholder".

Definition str_field (key : string) (n : node) : string :=
  match get_field key n with Some (VStr s) => s | _ => "" end.
Definition bool_field (key : string) (n : node) : bool :=
  match get_field key n with Some (VBool b) => b | _ => false end.

(** Modelled from the spec (section 4.2): [matches(pattern, node)], a
    synchronized descent threading the environment. *)
Fixpoint match_node (p n : node) (e : env) {struct p} : option env :=
  match p with
  | Node pk pfs =>
      if String.eqb pk "GenericPlaceholder" then
        if String.eqb (node_type n) "Identifier"
        then bind (str_field "name" p) (BName (str_field "name" n)) e
        else None
      else if String.eqb pk "StatementPlaceholder" then
        if is_statement n && (negb (bool_field "expectMultiLine" p) || is_multiline n)
        then bind (str_field "name" p) (BNode n) e
        else None
      else if String.eqb pk "ExpressionPlaceholder" then
        if is_expression n || (bool_field "allowDeclarations" p && is_declaration n)
        then bind (str_field "name" p) (BNode n) e
        else None
      else
        match n with
        | Node nk nfs =>
            if String.eqb pk nk then
              (fix match_fields (ps ns : list (string * value)) (e : env) : option env :=
                 match ps, ns with
                 | [], [] => Some e
                 | (k1, v1) :: ps', (k2, v2) :: ns' =>
                     if String.eqb k1 k2 then
                       match
                         match v1, v2 with
                         | VStr s1, VStr s2 => if String.eqb s1 s2 then Some e else None
                         | VNum z1, VNum z2 => if Z.eqb z1 z2 then Some e else None
                         | VBool b1, VBool b2 => if Bool.eqb b1 b2 then Some e else None
                         | VNull, VNull => Some e
                         | VNode c1, VNode c2 => match_node c1 c2 e
                         | VList l1, VList l2 =>
                             (fix match_list (l1 l2 : list node) (e : env) : option env :=
                                match l1, l2 with
                                | [], [] => Some e
                                | c1 :: l1', c2 :: l2' =>
                                    match match_node c1 c2 e with
                                    | Some e' => match_list l1' l2' e'
                                    | None => None
                                    end
                                | _, _ => None
                                end) l1 l2 e
                         | _, _ => None
                         end
                       with
                       | Some e' => match_fields ps' ns' e'
                       | None => None
                       end
                     else None
                 | _, _ => None
                 end) pfs nfs e
            else None
        end
  end.

Definition matches (p n : node) : option env := match_node p n [].

End Patterns.

Module Fill.
Import Patterns.

(** Modelled from the spec (section 4.3): [fill(template, environment)];
    [None] is the missing-binding error. *)
Fixpoint fill (t : node) (e : env) {struct t} : option node :=
  match t with
  | Node k fs =>
      if String.eqb k "GenericPlaceholder" then
        match lookup (str_field "name" t) e with
        | Some (BName s) => Some (Identifier s)
        | _ => None
        end
      else if String.eqb k "StatementPlaceholder" || String.eqb k "ExpressionPlaceholder" then
        match lookup (str_field "name" t) e with
        | Some (BNode m) => Some m
        | _ => None
        end
      else
        match
          (fix fill_fields (fs : list (string * value)) : option (list (string * value)) :=
             match fs with
             | [] => Some []
             | (key, v) :: fs' =>
                 match
                   match v with
                   | VNode c => match fill c e with Some c' => Some (VNode c') | None => None end
                   | VList l =>
                       match
                         (fix fill_list (l : list node) : option (list node) :=
                            match l with
                            | [] => Some []
                            | c :: l' =>
                                match fill c e, fill_list l' with
                                | Some c', Some l'' => Some (c' :: l'')
                                | _, _ => None
                                end
                            end) l
                       with Some l' => Some (VList l') | None => None end
                   | v => Some v
                   end, fill_fields fs'
                 with
                 | Some v', Some fs'' => Some ((key, v') :: fs'')
                 | _, _ => None
                 end
             end) fs
        with Some fs' => Some (Node k fs') | None => None end
  end.

End Fill.

(* ------------------------------------------------------------------ *)
(** ** The rewrite driver (src/lib/rewriteCode.js) *)

Module Rewrite.
Import Patterns Fill.

Definition E (k : string) := ExpressionPlaceholder k false.
Definition ED (k : string) := ExpressionPlaceholder k true.
Definition S (k : string) := StatementPlaceholder k false.
Definition SM (k : string) := StatementPlaceholder k true.
Definition G (k : string) := GenericPlaceholder k.

(** The body of the module-interop helper, over its parameter [x]:
    [return x && x.__esModule ? x : { default: x };] *)
Definition interop_body (x : node) : node :=
  BlockStatement
    [ReturnStatement
       (ConditionalExpression
          (LogicalExpression "&&" x (MemberExpression x (Identifier "__esModule")))
          x
          (ObjectExpression [Property (Identifier "default") x]))].

(** [rewritePatterns], each pair compiled. *)
Definition rewritePatterns : list (node * node) :=
  [ (UnaryExpression "!" (NumLiteral 1), BoolLiteral false);
    (UnaryExpression "!" (NumLiteral 0), BoolLiteral true);
    (UnaryExpression "void" (NumLiteral 0), Identifier "undefined");
    (ExpressionStatement (LogicalExpression "&&" (E "expression1") (E "expression2")),
     IfStatement (E "expression1") (ExpressionStatement (E "expression2")) VNull);
    (ExpressionStatement (LogicalExpression "||" (E "expression1") (E "expression2")),
     IfStatement (UnaryExpression "!" (E "expression1"))
                 (ExpressionStatement (E "expression2")) VNull);
    (ExpressionStatement (ConditionalExpression (E "expression1") (E "expression2") (E "expression3")),
     IfStatement (E "expression1") (ExpressionStatement (E "expression2"))
                 (VNode (ExpressionStatement (E "expression3"))));
    (IfStatement (E "expression1") (SM "statement1") VNull,
     IfStatement (E "expression1") (BlockStatement [S "statement1"]) VNull);
    (WhileStatement (E "expression1") (SM "statement1"),
     WhileStatement (E "expression1") (BlockStatement [S "statement1"]));
    (DoWhileStatement (SM "statement1") (E "expression1"),
     DoWhileStatement (BlockStatement [S "statement1"]) (E "expression1"));
    (ForStatement (VNode (ED "expression1")) (VNode (E "expression2")) (VNode (E "expression3"))
                  (SM "statement1"),
     ForStatement (VNode (E "expression1")) (VNode (E "expression2")) (VNode (E "expression3"))
                  (BlockStatement [S "statement1"]));
    (ForInStatement (ED "expression1") (E "expression2") (SM "statement1"),
     ForInStatement (E "expression1") (E "expression2") (BlockStatement [S "statement1"]));
    (ForOfStatement (ED "expression1") (E "expression2") (SM "statement1"),
     ForOfStatement (E "expression1") (E "expression2") (BlockStatement [S "statement1"]));
    (FunctionDeclaration (G "placeholder1") [G "placeholder2"] (interop_body (G "placeholder2")),
     FunctionDeclaration (Identifier "_interopRequireDefault") [Identifier "obj"]
                         (interop_body (Identifier "obj"))) ].

(** [node[key] = v]. *)
Definition set_field (key : string) (v : value) (n : node) : node :=
  match n with
  | Node k fs => Node k (map (fun kv => if String.eqb (fst kv) key then (key, v) else kv) fs)
  end.

Definition set_type (k : string) (n : node) : node := Node k (node_fields n).

(** [node.id.name]; [None] where [node.id] is not a node (a TypeError). *)
Definition id_name (n : node) : option string :=
  match get_field "id" n with
  | Some (VNode i) => Some (str_field "name" i)
  | _ => None
  end.

(** [result.id.name = newName]. *)
Definition set_id_name (nm : string) (n : node) : node :=
  match get_field "id" n with
  | Some (VNode i) => set_field "id" (VNode (set_field "name" (VStr nm) i)) n
  | _ => n
  end.

Definition string_of_nat (i : nat) : string :=
  DecimalString.NilZero.string_of_uint (Nat.to_uint i).

(** [while (scope.set.has(newName)) newName = result.id.name + i;]
    The loop body does not change [i].  The loop carries fuel; [None] is
    a loop still running when the fuel is spent. *)
Fixpoint fresh_name (fuel : nat) (set : list string) (base : string) (i : nat)
    (newName : string) : option string :=
  match fuel with
  | O => None
  | Datatypes.S fuel' =>
      if existsb (String.eqb newName) set
      then fresh_name fuel' set base i (base ++ string_of_nat i)
      else Some newName
  end.

(** A call [renameVariable(variable, newName)] of src/utils.js (not among
    the sources) is recorded as the pair of the variable's name and the
    new name; the traversal threads the list of these calls. *)
Definition renames := list (string * string).

(** The scope analysis ([escope.analyze(ast)]) as far as the driver uses
    it: [upper_set node] lists the names bound in
    [scopeManager.acquire(node).upper]. *)
Definition scopes := node -> list string.

Section Driver.

Variable upper_set : scopes.

(** The loop [for (let [pattern, replacement] of rewritePatterns)] of the
    [enter] hook.  [Some (None, s)]: no rule matched (the hook returns
    [undefined]); [Some (Some r, s)]: the node is replaced by [r]; [None]:
    [fill] threw or the renaming loop did not finish. *)
(** The body of the loop once [result] is filled: the renaming of a
    replaced function declaration, then [return result]. *)
Definition replace_with (fuel : nat) (n result : node) (s : renames)
  : option (option node * renames) :=
  if String.eqb (node_type n) "FunctionDeclaration"
     && String.eqb (node_type result) "FunctionDeclaration"
  then
    match id_name n, id_name result with
    | Some variable, Some base =>
        match fresh_name fuel (upper_set n) base 1 base with
        | Some newName => Some (Some (set_id_name newName result), (variable, newName) :: s)
        | None => None
        end
    | _, _ => None
    end
  else Some (Some result, s).

Fixpoint apply_rules (fuel : nat) (rules : list (node * node)) (n : node) (s : renames)
  : option (option node * renames) :=
  match rules with
  | [] => Some (None, s)
  | (pattern, replacement) :: rules' =>
      match matches pattern n with
      | None => apply_rules fuel rules' n s
      | Some placeholders =>
          match fill replacement placeholders with
          | None => None
          | Some result => replace_with fuel n result s
          end
      end
  end.

Definition is_sequence_statement (n : node) : bool :=
  String.eqb (node_type n) "ExpressionStatement" &&
  match get_field "expression" n with
  | Some (VNode x) => String.eqb (node_type x) "SequenceExpression"
  | _ => false
  end.

Definition sequence_items (n : node) : list node :=
  match get_field "expression" n with
  | Some (VNode x) =>
      match get_field "expressions" x with Some (VList l) => l | _ => [] end
  | _ => []
  end.

(** The [enter] hook. *)
Definition enter (fuel : nat) (n : node) (s : renames) : option (option node * renames) :=
  if is_sequence_statement n
  then Some (Some (Program (map ExpressionStatement (sequence_items n))), s)
  else apply_rules fuel rewritePatterns n s.

End Driver.

(** The number of nodes of a tree; it bounds the splicing loop. *)
Fixpoint node_size (n : node) : nat :=
  match n with
  | Node _ fs =>
      Datatypes.S
        ((fix fields_size (fs : list (string * value)) : nat :=
            match fs with
            | [] => O
            | (_, VNode c) :: fs' => node_size c + fields_size fs'
            | (_, VList l) :: fs' =>
                (fix list_size (l : list node) : nat :=
                   match l with [] => O | c :: l' => node_size c + list_size l' end) l
                + fields_size fs'
            | _ :: fs' => fields_size fs'
            end) fs)
  end.

Definition list_size : list node -> nat :=
  fix list_size (l : list node) : nat :=
    match l with [] => O | c :: l' => node_size c + list_size l' end.

Definition fields_size : list (string * value) -> nat :=
  fix fields_size (fs : list (string * value)) : nat :=
    match fs with
    | [] => O
    | (_, VNode c) :: fs' => node_size c + fields_size fs'
    | (_, VList l) :: fs' => list_size l + fields_size fs'
    | _ :: fs' => fields_size fs'
    end.

Definition body_of (n : node) : list node :=
  match get_field "body" n with Some (VList l) => l | _ => [] end.

(** [for (let i = 0; i < node.body.length; i++)
       if (node.body[i].type == "Program")
       { node.body.splice(i, 1, ...node.body[i].body); i--; }]
    with the array split at [i]: [done] holds [body[0..i)] reversed and
    [rest] holds [body[i..]].  The fuel bounds the iterations. *)
Fixpoint splice_loop (fuel : nat) (done rest : list node) : list node :=
  match fuel with
  | O => rev done ++ rest
  | Datatypes.S fuel' =>
      match rest with
      | [] => rev done
      | x :: rest' =>
          if String.eqb (node_type x) "Program"
          then splice_loop fuel' done (body_of x ++ rest')
          else splice_loop fuel' (x :: done) rest'
      end
  end.

Definition flatten_body (l : list node) : list node :=
  splice_loop (Datatypes.S (list_size l)) [] l.

Definition is_block_like (k : string) : bool :=
  String.eqb k "BlockStatement" || String.eqb k "Program".

(** The [leave] hook; [ptype] is [parent.type]. *)
Definition leave (ptype : string) (n : node) : node :=
  let n1 := if String.eqb (node_type n) "Program" && negb (is_block_like ptype)
            then set_type "BlockStatement" n else n in
  if is_block_like (node_type n1)
  then match get_field "body" n1 with
       | Some (VList l) => set_field "body" (VList (flatten_body l)) n1
       | _ => n1
       end
  else n1.

(** The children of a node, visited left to right with [visit1]; scalar
    fields are kept. *)
Fixpoint visit_list (visit1 : node -> renames -> option (node * renames))
    (l : list node) (s : renames) : option (list node * renames) :=
  match l with
  | [] => Some ([], s)
  | c :: l' =>
      match visit1 c s with
      | None => None
      | Some (c', s1) =>
          match visit_list visit1 l' s1 with
          | None => None
          | Some (l'', s2) => Some (c' :: l'', s2)
          end
      end
  end.

Fixpoint visit_fields (visit1 : node -> renames -> option (node * renames))
    (fs : list (string * value)) (s : renames) : option (list (string * value) * renames) :=
  match fs with
  | [] => Some ([], s)
  | (key, v) :: fs' =>
      match
        match v with
        | VNode c =>
            match visit1 c s with Some (c', s1) => Some (VNode c', s1) | None => None end
        | VList l =>
            match visit_list visit1 l s with Some (l', s1) => Some (VList l', s1) | None => None end
        | v => Some (v, s)
        end
      with
      | None => None
      | Some (v', s1) =>
          match visit_fields visit1 fs' s1 with
          | None => None
          | Some (fs'', s2) => Some ((key, v') :: fs'', s2)
          end
      end
  end.

Section Traversal.

Variable upper_set : scopes.

(** [estraverse.replace(ast, {enter, leave})] at one node: [enter], then
    the children of the node [enter] left in place (whose [parent] is that
    node), then [leave].  [parent] is [None] at the root, whose [parent]
    in estraverse is the root's own element.  The fuel bounds the depth of
    the walk and the renaming loop. *)
Fixpoint visit (fuel : nat) (parent : option string) (n : node) (s : renames)
  : option (node * renames) :=
  match fuel with
  | O => None
  | Datatypes.S fuel' =>
      match enter upper_set fuel' n s with
      | None => None
      | Some (r, s1) =>
          let m := match r with Some m => m | None => n end in
          match visit_fields (visit fuel' (Some (node_type m))) (node_fields m) s1 with
          | None => None
          | Some (fs', s2) =>
              let ptype := match parent with Some p => p | None => node_type m end in
              Some (leave ptype (Node (node_type m) fs'), s2)
          end
      end
  end.

(** [rewriteCode(ast)]: the rewritten tree and the renaming calls made. *)
Definition rewriteCode (fuel : nat) (ast : node) : option (node * renames) :=
  visit fuel None ast [].

End Traversal.

End Rewrite.

(* ================================================================== *)
(** * Properties *)

(** ** Induction over nested nodes *)

Module NodeInd.

Section NodeInd.
Variable P : node -> Prop.

Definition value_P (v : value) : Prop :=
  match v with
  | VNode c => P c
  | VList l => Forall P l
  | _ => True
  end.

Hypothesis HNode : forall k fs, Forall (fun kv => value_P (snd kv)) fs -> P (Node k fs).

Fixpoint node_ind' (n : node) : P n :=
  match n with
  | Node k fs =>
      HNode k fs
        ((fix F (fs : list (string * value)) : Forall (fun kv => value_P (snd kv)) fs :=
            match fs with
            | [] => Forall_nil _
            | (key, v) :: fs' =>
                Forall_cons (key, v)
                  (match v return value_P v with
                   | VNode c => node_ind' c
                   | VList l =>
                       (fix G (l : list node) : Forall P l :=
                          match l with
                          | [] => Forall_nil _
                          | c :: l' => Forall_cons c (node_ind' c) (G l')
                          end) l
                   | VStr _ | VNum _ | VBool _ | VNull => I
                   end)
                  (F fs')
            end) fs)
  end.

End NodeInd.

End NodeInd.

Module EqFacts.
Import NodeInd.

Lemma node_eqb_eq (a b : node) : node_eqb a b = true -> a = b.
Proof.
  revert b. induction a as [k fs IH] using node_ind'. intros [k' fs'] H.
  simpl in H. apply andb_prop in H as [Hk H]. apply String.eqb_eq in Hk. subst k'.
  f_equal. revert fs' H. induction IH as [|[key v] fs Hv _ IHfs]; intros [|[key' v'] fs'] H;
    try discriminate; [reflexivity|].
  apply andb_prop in H as [H Hrest]. apply andb_prop in H as [Hkey Hval].
  apply String.eqb_eq in Hkey. subst key'. rewrite (IHfs fs' Hrest). f_equal. f_equal.
  simpl in Hv. destruct v, v'; try discriminate.
  - apply String.eqb_eq in Hval. congruence.
  - apply Z.eqb_eq in Hval. congruence.
  - apply Bool.eqb_prop in Hval. congruence.
  - reflexivity.
  - f_equal. apply Hv. exact Hval.
  - f_equal. revert l0 Hval. induction Hv as [|c l Hc _ IHl]; intros [|c' l'] Hl;
      try discriminate; [reflexivity|].
    apply andb_prop in Hl as [H1 H2]. f_equal; [apply Hc; exact H1 | apply IHl; exact H2].
Qed.

End EqFacts.

Module IoFacts.
Import Io.

Lemma dirname_root : dirname "/" = "/".
Proof. reflexivity. Qed.

Lemma ensureParentDirExists_step (fuel : nat) (fs : fsys) (p : string) :
  ensureParentDirExists (S fuel) fs p =
  if String.eqb (dirname p) "" || String.eqb (dirname p) "." then Some fs
  else match ensureParentDirExists fuel fs (dirname p) with
       | None => None
       | Some fs' => Some (if existsSync fs' (dirname p) then fs' else mkdirSync fs' (dirname p))
       end.
Proof. reflexivity. Qed.

(** The root is its own parent directory, so the recursion never reaches
    the ["."] guard from there. *)
Lemma ensureParentDirExists_root (fuel : nat) (fs : fsys) :
  ensureParentDirExists fuel fs "/" = None.
Proof.
  induction fuel as [|fuel IH]; [reflexivity|].
  rewrite ensureParentDirExists_step, dirname_root, IH. reflexivity.
Qed.

(** A relative path stops at ["."], creating each missing parent once. *)
Lemma ensureParentDirExists_relative :
  ensureParentDirExists 3 [] "out/sub/a.js" = Some ["out"; "out/sub"].
Proof. reflexivity. Qed.

(** C10 (code_bug): for the absolute path ["/out/a.js"] the recursion goes
    ["/out"], ["/"], ["/"], ... and never returns, whatever the fuel. *)
Theorem ensureParentDirExists_absolute_diverges (fuel : nat) (fs : fsys) :
  ensureParentDirExists fuel fs "/out/a.js" = None.
Proof.
  destruct fuel as [|[|fuel]]; [reflexivity|reflexivity|].
  rewrite !ensureParentDirExists_step.
  change (dirname (dirname "/out/a.js")) with "/".
  rewrite ensureParentDirExists_root. reflexivity.
Qed.

End IoFacts.

Module RenameFacts.
Import Patterns Fill Rewrite.

Lemma fresh_name_step (fuel : nat) (set : list string) (base : string) (i : nat) (nm : string) :
  fresh_name (Datatypes.S fuel) set base i nm =
  if existsb (String.eqb nm) set then fresh_name fuel set base i (base ++ string_of_nat i)
  else Some nm.
Proof. reflexivity. Qed.

(** Once the first suffixed name is taken too, the loop keeps assigning
    that same name and never leaves. *)
Lemma fresh_name_stuck (fuel : nat) (set : list string) (base : string) (i : nat) (nm : string) :
  existsb (String.eqb nm) set = true ->
  existsb (String.eqb (base ++ string_of_nat i)) set = true ->
  fresh_name fuel set base i nm = None.
Proof.
  revert nm. induction fuel as [|fuel IH]; intros nm Hnm Hsuf; [reflexivity|].
  rewrite fresh_name_step, Hnm. apply IH; assumption.
Qed.

(** A minified module-interop helper [function n(e) { return e &&
    e.__esModule ? e : { default: e }; }]. *)
Definition minified_helper : node :=
  FunctionDeclaration (Identifier "n") [Identifier "e"] (interop_body (Identifier "e")).

(** The scope of the helper also binds [_interopRequireDefault] and
    [_interopRequireDefault1]. *)
Definition crowded_scope : scopes :=
  fun _ => ["n"; "_interopRequireDefault"; "_interopRequireDefault1"].

(** With one free name ([_interopRequireDefault] taken) the suffix 1 is
    used and the helper's variable is renamed to it. *)
Lemma rewrite_helper_suffix_1 :
  option_map snd
    (rewriteCode (fun _ => ["n"; "_interopRequireDefault"]) 10 (Program [minified_helper]))
  = Some [("n", "_interopRequireDefault1")].
Proof. vm_compute. reflexivity. Qed.

(** C1 (code_bug): the search for a free name never ends when
    [_interopRequireDefault] and [_interopRequireDefault1] are both bound
    in the helper's scope: [i] is never incremented, so the driver does not
    return on this program, whatever the fuel. *)
Theorem rewrite_helper_crowded_scope_diverges (fuel : nat) :
  rewriteCode crowded_scope fuel (Program [minified_helper]) = None.
Proof.
  destruct fuel as [|[|[|fuel]]]; try reflexivity.
  unfold rewriteCode. cbn - [fresh_name].
  rewrite fresh_name_stuck by reflexivity. reflexivity.
Qed.

End RenameFacts.

Module MatchFacts.
Import NodeInd EqFacts Patterns.

(** The list and field loops of [match_node], as functions of their own. *)
Fixpoint match_list (l1 l2 : list node) (e : env) : option env :=
  match l1, l2 with
  | [], [] => Some e
  | c1 :: l1', c2 :: l2' =>
      match match_node c1 c2 e with Some e' => match_list l1' l2' e' | None => None end
  | _, _ => None
  end.

Definition match_value (v1 v2 : value) (e : env) : option env :=
  match v1, v2 with
  | VStr s1, VStr s2 => if String.eqb s1 s2 then Some e else None
  | VNum z1, VNum z2 => if Z.eqb z1 z2 then Some e else None
  | VBool b1, VBool b2 => if Bool.eqb b1 b2 then Some e else None
  | VNull, VNull => Some e
  | VNode c1, VNode c2 => match_node c1 c2 e
  | VList l1, VList l2 => match_list l1 l2 e
  | _, _ => None
  end.

Fixpoint match_fields (ps ns : list (string * value)) (e : env) : option env :=
  match ps, ns with
  | [], [] => Some e
  | (k1, v1) :: ps', (k2, v2) :: ns' =>
      if String.eqb k1 k2 then
        match match_value v1 v2 e with Some e' => match_fields ps' ns' e' | None => None end
      else None
  | _, _ => None
  end.

Lemma match_node_Node (pk : string) (pfs : list (string * value)) (n : node) (e : env) :
  is_placeholder_kind pk = false ->
  match_node (Node pk pfs) n e =
  match n with Node nk nfs => if String.eqb pk nk then match_fields pfs nfs e else None end.
Proof.
  intros Hph. unfold is_placeholder_kind in Hph.
  apply orb_false_elim in Hph as [Hph He]. apply orb_false_elim in Hph as [Hg Hs].
  destruct n as [nk nfs]. simpl. rewrite Hg, Hs, He.
  destruct (String.eqb pk nk); reflexivity.
Qed.

Definition env_le (e1 e2 : env) : Prop :=
  forall k b, lookup k e1 = Some b -> lookup k e2 = Some b.

Lemma env_le_refl (e : env) : env_le e e.
Proof. intros k b H. exact H. Qed.

Lemma env_le_trans (e1 e2 e3 : env) : env_le e1 e2 -> env_le e2 e3 -> env_le e1 e3.
Proof. intros H1 H2 k b H. apply H2, H1, H. Qed.

Lemma binding_eqb_eq (a b : binding) : binding_eqb a b = true -> a = b.
Proof.
  destruct a, b; simpl; intros H; try discriminate.
  - apply String.eqb_eq in H. congruence.
  - apply node_eqb_eq in H. congruence.
Qed.

Lemma bind_spec (k : string) (b : binding) (e e' : env) :
  bind k b e = Some e' -> env_le e e' /\ lookup k e' = Some b.
Proof.
  unfold bind. destruct (lookup k e) as [b'|] eqn:Hk.
  - destruct (binding_eqb b b') eqn:Hb; intros H; inversion H; subst.
    apply binding_eqb_eq in Hb. subst. split; [apply env_le_refl|exact Hk].
  - intros H. inversion H; subst. split.
    + intros k' b'' H'. simpl. destruct (String.eqb k' k) eqn:E; [|exact H'].
      apply String.eqb_eq in E. subst. congruence.
    + simpl. rewrite String.eqb_refl. reflexivity.
Qed.

Ltac split_placeholder_kind H :=
  unfold is_placeholder_kind in H;
  apply orb_false_elim in H as [H ?He]; apply orb_false_elim in H as [?Hg ?Hs].

(** Matching only ever adds bindings. *)
Lemma match_node_le (p : node) : forall n e e', match_node p n e = Some e' -> env_le e e'.
Proof.
  induction p as [pk pfs IH] using node_ind'. intros n e e' H.
  destruct (is_placeholder_kind pk) eqn:Hph.
  - simpl in H.
    destruct (String.eqb pk "GenericPlaceholder") eqn:Hg;
      [destruct (String.eqb (node_type n) "Identifier"); [apply bind_spec in H; tauto|discriminate]|].
    destruct (String.eqb pk "StatementPlaceholder") eqn:Hs;
      [destruct (_ && _); [apply bind_spec in H; tauto|discriminate]|].
    destruct (String.eqb pk "ExpressionPlaceholder") eqn:He;
      [destruct (_ || _); [apply bind_spec in H; tauto|discriminate]|].
    unfold is_placeholder_kind in Hph. rewrite Hg, Hs, He in Hph. discriminate.
  - rewrite match_node_Node in H by exact Hph. destruct n as [nk nfs].
    destruct (String.eqb pk nk); [|discriminate].
    revert nfs e H. induction IH as [|[k1 v1] pfs Hv _ IHfs]; intros [|[k2 v2] nfs] e H;
      simpl in H; try discriminate.
    + inversion H; subst. apply env_le_refl.
    + destruct (String.eqb k1 k2); [|discriminate].
      destruct (match_value v1 v2 e) as [e1|] eqn:Hm; [|discriminate].
      apply env_le_trans with e1; [|eapply IHfs; exact H].
      simpl in Hv. destruct v1, v2; simpl in Hm; try discriminate;
        try (match type of Hm with (if ?c then _ else _) = _ =>
               destruct c; inversion Hm; subst; apply env_le_refl end).
      * inversion Hm; subst; apply env_le_refl.
      * eapply Hv; exact Hm.
      * clear H IHfs. revert l0 e Hm. induction Hv as [|c l Hc _ IHl]; intros [|c' l'] e Hm;
          simpl in Hm; try discriminate.
        -- inversion Hm; subst; apply env_le_refl.
        -- destruct (match_node c c' e) as [e2|] eqn:Hc'; [|discriminate].
           apply env_le_trans with e2; [eapply Hc; exact Hc'|eapply IHl; exact Hm].
Qed.

Lemma match_list_le (l1 l2 : list node) (e e' : env) :
  match_list l1 l2 e = Some e' -> env_le e e'.
Proof.
  revert l2 e. induction l1 as [|c l1 IH]; intros [|c' l2] e H; simpl in H; try discriminate.
  - inversion H; subst; apply env_le_refl.
  - destruct (match_node c c' e) as [e1|] eqn:Hc; [|discriminate].
    apply env_le_trans with e1; [eapply match_node_le; exact Hc|eapply IH; exact H].
Qed.

Lemma match_value_le (v1 v2 : value) (e e' : env) :
  match_value v1 v2 e = Some e' -> env_le e e'.
Proof.
  destruct v1, v2; simpl; intros H; try discriminate;
    try (match type of H with (if ?c then _ else _) = _ =>
           destruct c; inversion H; subst; apply env_le_refl end).
  - inversion H; subst; apply env_le_refl.
  - eapply match_node_le; exact H.
  - eapply match_list_le; exact H.
Qed.

Lemma match_fields_le (ps ns : list (string * value)) (e e' : env) :
  match_fields ps ns e = Some e' -> env_le e e'.
Proof.
  revert ns e. induction ps as [|[k1 v1] ps IH]; intros [|[k2 v2] ns] e H; simpl in H;
    try discriminate.
  - inversion H; subst; apply env_le_refl.
  - destruct (String.eqb k1 k2); [|discriminate].
    destruct (match_value v1 v2 e) as [e1|] eqn:Hm; [|discriminate].
    apply env_le_trans with e1; [eapply match_value_le; exact Hm|eapply IH; exact H].
Qed.

(** The values facing each other at one field position were matched with
    an environment that the final one extends. *)
Lemma match_fields_nth (ps ns : list (string * value)) (e e' : env) (i : nat)
    (key key' : string) (v1 v2 : value) :
  match_fields ps ns e = Some e' ->
  nth_error ps i = Some (key, v1) -> nth_error ns i = Some (key', v2) ->
  exists e1 e2, match_value v1 v2 e1 = Some e2 /\ env_le e2 e'.
Proof.
  revert ns e i. induction ps as [|[k1 w1] ps IH]; intros [|[k2 w2] ns] e i H H1 H2;
    simpl in H; try discriminate; destruct i; simpl in H1, H2; try discriminate.
  - inversion H1; inversion H2; subst.
    destruct (String.eqb key key'); [|discriminate].
    destruct (match_value v1 v2 e) as [e1|] eqn:Hm; [|discriminate].
    exists e, e1. split; [exact Hm|eapply match_fields_le; exact H].
  - destruct (String.eqb k1 k2); [|discriminate].
    destruct (match_value w1 w2 e) as [e1|] eqn:Hm; [|discriminate].
    eapply IH; eassumption.
Qed.

Lemma match_list_nth (l1 l2 : list node) (e e' : env) (j : nat) (c1 c2 : node) :
  match_list l1 l2 e = Some e' -> nth_error l1 j = Some c1 -> nth_error l2 j = Some c2 ->
  exists e1 e2, match_node c1 c2 e1 = Some e2 /\ env_le e2 e'.
Proof.
  revert l2 e j. induction l1 as [|d1 l1 IH]; intros [|d2 l2] e j H H1 H2;
    simpl in H; try discriminate; destruct j; simpl in H1, H2; try discriminate.
  - inversion H1; inversion H2; subst.
    destruct (match_node c1 c2 e) as [e1|] eqn:Hm; [|discriminate].
    exists e, e1. split; [exact Hm|eapply match_list_le; exact H].
  - destruct (match_node d1 d2 e) as [e1|] eqn:Hm; [|discriminate].
    eapply IH; eassumption.
Qed.

(** An occurrence of a placeholder of the pattern [p], with the value it
    faces in the node [n] at the same position: a name for a generic
    placeholder, the subtree for a statement or expression placeholder. *)
Inductive occ : node -> node -> string -> binding -> Prop :=
| occ_generic (p n : node) :
    node_type p = "GenericPlaceholder" ->
    occ p n (str_field "name" p) (BName (str_field "name" n))
| occ_subtree (p n : node) :
    node_type p = "StatementPlaceholder" \/ node_type p = "ExpressionPlaceholder" ->
    occ p n (str_field "name" p) (BNode n)
| occ_field (pk nk : string) (pfs nfs : list (string * value)) (i : nat) (key key' : string)
    (pc nc : node) (k : string) (b : binding) :
    is_placeholder_kind pk = false ->
    nth_error pfs i = Some (key, VNode pc) -> nth_error nfs i = Some (key', VNode nc) ->
    occ pc nc k b -> occ (Node pk pfs) (Node nk nfs) k b
| occ_elem (pk nk : string) (pfs nfs : list (string * value)) (i j : nat) (key key' : string)
    (pl nl : list node) (pc nc : node) (k : string) (b : binding) :
    is_placeholder_kind pk = false ->
    nth_error pfs i = Some (key, VList pl) -> nth_error nfs i = Some (key', VList nl) ->
    nth_error pl j = Some pc -> nth_error nl j = Some nc ->
    occ pc nc k b -> occ (Node pk pfs) (Node nk nfs) k b.

Lemma occ_bound (p n : node) (k : string) (b : binding) :
  occ p n k b -> forall e e', match_node p n e = Some e' -> lookup k e' = Some b.
Proof.
  induction 1 as [p n Hp|p n Hp|pk nk pfs nfs i key key' pc nc k b Hph H1 H2 _ IH
                 |pk nk pfs nfs i j key key' pl nl pc nc k b Hph H1 H2 H3 H4 _ IH];
    intros e e' H.
  - destruct p as [pk pfs]. simpl in Hp. subst pk. simpl in H.
    destruct (String.eqb (node_type n) "Identifier"); [|discriminate].
    apply bind_spec in H. tauto.
  - destruct p as [pk pfs]. simpl in Hp. destruct Hp as [Hp|Hp]; subst pk; simpl in H.
    + destruct (_ && _); [|discriminate]. apply bind_spec in H. tauto.
    + destruct (_ || _); [|discriminate]. apply bind_spec in H. tauto.
  - rewrite match_node_Node in H by exact Hph.
    destruct (String.eqb pk nk); [|discriminate].
    destruct (match_fields_nth _ _ _ _ _ _ _ _ _ H H1 H2) as (e1 & e2 & Hm & Hle).
    apply Hle. eapply IH. exact Hm.
  - rewrite match_node_Node in H by exact Hph.
    destruct (String.eqb pk nk); [|discriminate].
    destruct (match_fields_nth _ _ _ _ _ _ _ _ _ H H1 H2) as (e1 & e2 & Hm & Hle).
    simpl in Hm.
    destruct (match_list_nth _ _ _ _ _ _ _ Hm H3 H4) as (e3 & e4 & Hm' & Hle').
    apply Hle, Hle'. eapply IH. exact Hm'.
Qed.

(** C9: when [matches(pattern, node)] succeeds, every occurrence of one
    placeholder key faces the same value (the same name for a generic
    placeholder, equal subtrees for statement and expression placeholders),
    and that value is the one the environment binds; a pattern whose
    occurrences of a key face different values does not match. *)
Theorem matches_consistent (p n : node) (e : env) (k : string) (b1 b2 : binding) :
  matches p n = Some e -> occ p n k b1 -> occ p n k b2 ->
  b1 = b2 /\ lookup k e = Some b1.
Proof.
  unfold matches. intros H O1 O2.
  pose proof (occ_bound _ _ _ _ O1 _ _ H) as L1.
  pose proof (occ_bound _ _ _ _ O2 _ _ H) as L2.
  split; [congruence|exact L1].
Qed.

End MatchFacts.

Module PatternFacts.
Import EqFacts Patterns Fill MatchFacts.

Definition BinaryExpression (op : string) (l r : node) : node :=
  Node "BinaryExpression" [("operator", VStr op); ("left", VNode l); ("right", VNode r)].
Definition AssignmentExpression (op : string) (l r : node) : node :=
  Node "AssignmentExpression" [("operator", VStr op); ("left", VNode l); ("right", VNode r)].

Definition sum_with (body : list node) : node :=
  FunctionDeclaration (Identifier "sum") [Identifier "a"; Identifier "b"] (BlockStatement body).

(** The io.js tests of [matches], on the model. *)
Definition generic_pattern : node :=
  FunctionDeclaration (GenericPlaceholder "placeholder1")
    [GenericPlaceholder "placeholder2"; GenericPlaceholder "placeholder3"]
    (BlockStatement [ReturnStatement (BinaryExpression "+" (GenericPlaceholder "placeholder2")
                                                        (GenericPlaceholder "placeholder3"))]).

Example matches_generic_accepts :
  matches generic_pattern
    (sum_with [ReturnStatement (BinaryExpression "+" (Identifier "a") (Identifier "b"))])
  = Some [("placeholder3", BName "b"); ("placeholder2", BName "a"); ("placeholder1", BName "sum")].
Proof. vm_compute. reflexivity. Qed.

Example matches_generic_mixed_up :
  matches generic_pattern
    (sum_with [ReturnStatement (BinaryExpression "+" (Identifier "b") (Identifier "a"))]) = None.
Proof. vm_compute. reflexivity. Qed.

Definition assign_stmt : node :=
  ExpressionStatement (AssignmentExpression "=" (Identifier "a")
                         (BinaryExpression "+" (Identifier "a") (Identifier "b"))).

Example matches_multiline_rejects_assignment :
  matches (sum_with [StatementPlaceholder "statement1" true]) (sum_with [assign_stmt]) = None.
Proof. vm_compute. reflexivity. Qed.

Example matches_plain_accepts_assignment :
  matches (sum_with [StatementPlaceholder "statement1" false]) (sum_with [assign_stmt])
  = Some [("statement1", BNode assign_stmt)].
Proof. vm_compute. reflexivity. Qed.

Example matches_multiline_accepts_conditional :
  matches (sum_with [StatementPlaceholder "statement1" true])
          (sum_with [IfStatement (Identifier "a") assign_stmt VNull])
  = Some [("statement1", BNode (IfStatement (Identifier "a") assign_stmt VNull))].
Proof. vm_compute. reflexivity. Qed.

(** C9, at [a && a] against [placeholder1 && placeholder1]. *)
Lemma matches_consistent_witness :
  matches (LogicalExpression "&&" (GenericPlaceholder "placeholder1") (GenericPlaceholder "placeholder1"))
          (LogicalExpression "&&" (Identifier "a") (Identifier "a"))
  = Some [("placeholder1", BName "a")] /\
  BName "a" = BName "a" /\ lookup "placeholder1" [("placeholder1", BName "a")] = Some (BName "a").
Proof.
  split; [reflexivity|].
  apply (matches_consistent
           (LogicalExpression "&&" (GenericPlaceholder "placeholder1") (GenericPlaceholder "placeholder1"))
           (LogicalExpression "&&" (Identifier "a") (Identifier "a"))
           [("placeholder1", BName "a")] "placeholder1" (BName "a") (BName "a")).
  - reflexivity.
  - apply (occ_field _ _ _ _ 1 "left" "left" (GenericPlaceholder "placeholder1") (Identifier "a"));
      try reflexivity.
    apply (occ_generic (GenericPlaceholder "placeholder1") (Identifier "a")). reflexivity.
  - apply (occ_field _ _ _ _ 2 "right" "right" (GenericPlaceholder "placeholder1") (Identifier "a"));
      try reflexivity.
    apply (occ_generic (GenericPlaceholder "placeholder1") (Identifier "a")). reflexivity.
Defined.

(** C8: a statement placeholder with [.multiLine] matches a statement
    exactly when the statement is of the compound/control-flow family;
    without the modifier it matches every statement. *)
Theorem statement_placeholder_multiline (k : string) (n : node) (e : env) :
  is_statement n = true -> lookup k e = None ->
  (match_node (StatementPlaceholder k true) n e <> None <-> is_multiline n = true) /\
  match_node (StatementPlaceholder k false) n e <> None.
Proof.
  intros Hst Hk. cbn -[is_statement is_multiline lookup].
  rewrite Hst. unfold bind. rewrite Hk. simpl. split; [|discriminate].
  destruct (is_multiline n); split; intros H; try discriminate; try congruence.
Qed.

Lemma statement_placeholder_multiline_witness :
  is_statement assign_stmt = true /\ lookup "statement1" [] = None /\
  ((match_node (StatementPlaceholder "statement1" true) assign_stmt [] <> None <->
    is_multiline assign_stmt = true) /\
   match_node (StatementPlaceholder "statement1" false) assign_stmt [] <> None).
Proof.
  split; [reflexivity|]. split; [reflexivity|].
  apply statement_placeholder_multiline; reflexivity.
Defined.

(** The atomic family named in the spec is rejected, the compound family
    accepted. *)
Lemma atomic_kinds_not_multiline :
  forallb (fun k => negb (is_multiline (Node k [])))
    ["ExpressionStatement"; "VariableDeclaration"; "ReturnStatement"; "ThrowStatement";
     "BreakStatement"; "ContinueStatement"] = true.
Proof. reflexivity. Qed.

(** The placeholders a template refers to. *)
Inductive refers (k : string) : node -> Prop :=
| refers_placeholder (t : node) :
    is_placeholder_kind (node_type t) = true -> str_field "name" t = k -> refers k t
| refers_field (kind : string) (fs : list (string * value)) (key : string) (c : node) :
    is_placeholder_kind kind = false -> In (key, VNode c) fs -> refers k c ->
    refers k (Node kind fs)
| refers_elem (kind : string) (fs : list (string * value)) (key : string) (l : list node)
    (c : node) :
    is_placeholder_kind kind = false -> In (key, VList l) fs -> In c l -> refers k c ->
    refers k (Node kind fs).

(** The field and list loops of [fill], as functions of their own. *)
Definition fill_list (e : env) : list node -> option (list node) :=
  fix fill_list (l : list node) : option (list node) :=
    match l with
    | [] => Some []
    | c :: l' =>
        match fill c e, fill_list l' with
        | Some c', Some l'' => Some (c' :: l'')
        | _, _ => None
        end
    end.

Definition fill_fields (e : env) : list (string * value) -> option (list (string * value)) :=
  fix fill_fields (fs : list (string * value)) : option (list (string * value)) :=
    match fs with
    | [] => Some []
    | (key, v) :: fs' =>
        match
          match v with
          | VNode c => match fill c e with Some c' => Some (VNode c') | None => None end
          | VList l => match fill_list e l with Some l' => Some (VList l') | None => None end
          | v => Some v
          end, fill_fields fs'
        with
        | Some v', Some fs'' => Some ((key, v') :: fs'')
        | _, _ => None
        end
    end.

Lemma fill_Node (k : string) (fs : list (string * value)) (e : env) :
  is_placeholder_kind k = false ->
  fill (Node k fs) e = match fill_fields e fs with Some fs' => Some (Node k fs') | None => None end.
Proof.
  intros Hph. unfold is_placeholder_kind in Hph.
  apply orb_false_elim in Hph as [Hph He]. apply orb_false_elim in Hph as [Hg Hs].
  simpl. rewrite Hg, Hs, He. reflexivity.
Qed.

Lemma fill_list_missing (e : env) (l : list node) (c : node) :
  In c l -> fill c e = None -> fill_list e l = None.
Proof.
  induction l as [|d l IH]; intros Hin Hc; [destruct Hin|].
  destruct Hin as [<-|Hin]; simpl.
  - rewrite Hc. reflexivity.
  - rewrite (IH Hin Hc). destruct (fill d e); reflexivity.
Qed.

Lemma fill_fields_missing (e : env) (fs : list (string * value)) (key : string) (v : value) :
  In (key, v) fs ->
  match v with
  | VNode c => fill c e = None
  | VList l => fill_list e l = None
  | _ => False
  end ->
  fill_fields e fs = None.
Proof.
  induction fs as [|[key' v'] fs IH]; intros Hin Hv; [destruct Hin|].
  destruct Hin as [Heq|Hin]; simpl.
  - inversion Heq; subst. destruct v; try contradiction; rewrite Hv; reflexivity.
  - rewrite (IH Hin Hv). destruct v'; try reflexivity;
      [destruct (fill n e)|destruct (fill_list e l)]; reflexivity.
Qed.

(** C7: filling a template that refers to a placeholder key the
    environment does not bind fails, whatever else the environment binds. *)
Theorem fill_missing_placeholder (k : string) (t : node) (e : env) :
  refers k t -> lookup k e = None -> fill t e = None.
Proof.
  intros R Hk. induction R as [t Hph Hname|kind fs key c Hph Hin _ IH|kind fs key l c Hph Hin Hc _ IH].
  - destruct t as [kind fs]. simpl in Hph.
    unfold is_placeholder_kind in Hph.
    cbn -[str_field lookup]. rewrite Hname, Hk.
    destruct (String.eqb kind "GenericPlaceholder") eqn:Hg; [reflexivity|].
    destruct (String.eqb kind "StatementPlaceholder") eqn:Hs; [reflexivity|].
    destruct (String.eqb kind "ExpressionPlaceholder") eqn:He; [reflexivity|].
    repeat match type of Hph with context [?x =? ?y] => first [rewrite Hg in Hph|rewrite Hs in Hph|rewrite He in Hph] end.
    simpl in Hph. discriminate Hph.
  - rewrite fill_Node by exact Hph.
    rewrite (fill_fields_missing e fs key (VNode c) Hin IH). reflexivity.
  - rewrite fill_Node by exact Hph.
    rewrite (fill_fields_missing e fs key (VList l) Hin (fill_list_missing e l c Hc IH)).
    reflexivity.
Qed.

(** C7, at the io.js test: [placeholder1] is left out of the environment. *)
Lemma fill_missing_placeholder_witness :
  refers "placeholder1" generic_pattern /\
  lookup "placeholder1" [("placeholder2", BName "a"); ("placeholder3", BName "b")] = None /\
  fill generic_pattern [("placeholder2", BName "a"); ("placeholder3", BName "b")] = None.
Proof.
  assert (R : refers "placeholder1" generic_pattern).
  { apply (refers_field "placeholder1" "FunctionDeclaration" _ "id" (GenericPlaceholder "placeholder1")).
    - reflexivity.
    - left. reflexivity.
    - apply refers_placeholder; reflexivity. }
  split; [exact R|]. split; [reflexivity|].
  apply (fill_missing_placeholder "placeholder1"); [exact R|reflexivity].
Defined.

End PatternFacts.

Module DriverFacts.
Import Patterns Fill Rewrite.

Section WithScopes.
Variable upper_set : scopes.

Lemma apply_rules_app_skip (fuel : nat) (pre rules : list (node * node)) (n : node) (s : renames) :
  Forall (fun pr => matches (fst pr) n = None) pre ->
  apply_rules upper_set fuel (pre ++ rules)%list n s = apply_rules upper_set fuel rules n s.
Proof.
  induction 1 as [|[p r] pre Hp _ IH]; [reflexivity|].
  simpl in *. rewrite Hp. exact IH.
Qed.

Lemma apply_rules_none (fuel : nat) (rules : list (node * node)) (n : node) (s : renames) :
  Forall (fun pr => matches (fst pr) n = None) rules ->
  apply_rules upper_set fuel rules n s = Some (None, s).
Proof.
  intros H. rewrite <- (app_nil_r rules). rewrite apply_rules_app_skip by exact H. reflexivity.
Qed.

(** C4: at a node that is not a comma-sequence statement, the [enter]
    hook uses the first rule of the table whose pattern matches: it fills
    that rule's replacement with the environment of the match and replaces
    the node with it (the renaming step applying to function
    declarations), whatever the later rules are; when no rule matches, the
    hook leaves the node in place. *)
Theorem enter_first_match (fuel : nat) (n : node) (s : renames) :
  is_sequence_statement n = false ->
  (forall pre p r post placeholders,
     rewritePatterns = (pre ++ (p, r) :: post)%list ->
     Forall (fun pr => matches (fst pr) n = None) pre ->
     matches p n = Some placeholders ->
     enter upper_set fuel n s =
     match fill r placeholders with
     | Some result => replace_with upper_set fuel n result s
     | None => None
     end) /\
  (Forall (fun pr => matches (fst pr) n = None) rewritePatterns ->
   enter upper_set fuel n s = Some (None, s)).
Proof.
  intros Hseq. unfold enter. rewrite Hseq. split.
  - intros pre p r post placeholders Htab Hpre Hm. rewrite Htab.
    rewrite apply_rules_app_skip by exact Hpre. simpl. rewrite Hm. reflexivity.
  - apply apply_rules_none.
Qed.

End WithScopes.

(** C4, at [!1]: the first rule matches and [false] replaces the node. *)
Lemma enter_first_match_witness :
  is_sequence_statement (UnaryExpression "!" (NumLiteral 1)) = false /\
  enter (fun _ => []) 0 (UnaryExpression "!" (NumLiteral 1)) [] =
  match fill (BoolLiteral false) [] with
  | Some result => replace_with (fun _ => []) 0 (UnaryExpression "!" (NumLiteral 1)) result []
  | None => None
  end /\
  enter (fun _ => []) 0 (Identifier "x") [] = Some (None, []).
Proof.
  split; [reflexivity|]. split.
  - apply (proj1 (enter_first_match (fun _ => []) 0 (UnaryExpression "!" (NumLiteral 1)) [] eq_refl)
             [] (UnaryExpression "!" (NumLiteral 1)) (BoolLiteral false) (tl rewritePatterns) []);
      [reflexivity|constructor|reflexivity].
  - apply (proj2 (enter_first_match (fun _ => []) 0 (Identifier "x") [] eq_refl)).
    repeat constructor.
Defined.

(** C3: an expression statement over a comma sequence [e1, ..., en] is
    replaced, before any rule is tried, by a [Program] container of the
    statements [e1; ...; en;] in order, and the walk then visits each of
    those statements with the container as parent. *)
Theorem enter_sequence_split (upper_set : scopes) (fuel : nat) (parent : option string)
    (es : list node) (s : renames) :
  enter upper_set fuel (ExpressionStatement (SequenceExpression es)) s =
    Some (Some (Program (map ExpressionStatement es)), s) /\
  visit upper_set (Datatypes.S fuel) parent (ExpressionStatement (SequenceExpression es)) s =
    match visit_list (visit upper_set fuel (Some "Program")) (map ExpressionStatement es) s with
    | Some (l, s') =>
        Some (leave (match parent with Some p => p | None => "Program" end) (Program l), s')
    | None => None
    end.
Proof.
  split; [reflexivity|].
  simpl. destruct (visit_list _ _ s) as [[l s']|]; reflexivity.
Qed.

(** End-to-end: [a, b, c;] becomes [a; b; c;]. *)
Example rewrite_comma_statement :
  rewriteCode (fun _ => []) 10
    (Program [ExpressionStatement (SequenceExpression [Identifier "a"; Identifier "b"; Identifier "c"])])
  = Some (Program [ExpressionStatement (Identifier "a"); ExpressionStatement (Identifier "b");
                   ExpressionStatement (Identifier "c")], []).
Proof. vm_compute. reflexivity. Qed.

(** The forms of the bracing rules, on the model. *)
Definition scenario3 : node :=
  Program [IfStatement (Identifier "cond")
             (IfStatement (Identifier "x") (ExpressionStatement (Identifier "y")) VNull) VNull].

(** [if (cond) { if (x) { y; } }], the output the claim gives. *)
Definition scenario3_claimed : node :=
  Program [IfStatement (Identifier "cond")
             (BlockStatement
                [IfStatement (Identifier "x")
                   (BlockStatement [ExpressionStatement (Identifier "y")]) VNull]) VNull].

(** [if (cond) { if (x) y; }], the output of the driver. *)
Definition scenario3_actual : node :=
  Program [IfStatement (Identifier "cond")
             (BlockStatement
                [IfStatement (Identifier "x") (ExpressionStatement (Identifier "y")) VNull]) VNull].

(** C2 (counterexample): [if (cond) if (x) y;] becomes
    [if (cond) { if (x) y; }]: the inner body [y;] is an expression
    statement, which the [.multiLine] placeholder of the rule rejects, so
    it stays bare. *)
Lemma rewrite_scenario3_counterexample :
  rewriteCode (fun _ => []) 10 scenario3 = Some (scenario3_actual, []) /\
  scenario3_actual <> scenario3_claimed.
Proof. split; [vm_compute; reflexivity|discriminate]. Qed.

Ltac bare_form_rule Hbody :=
  unfold enter; cbn -[is_expression is_statement is_multiline is_declaration];
  repeat match goal with H : _ = true |- _ => rewrite H end; simpl;
  destruct (is_multiline _); reflexivity.

Section BareForms.
Variable upper_set : scopes.
Variables (fuel : nat) (s : renames).

Lemma enter_bare_if (t b : node) :
  is_expression t = true -> is_statement b = true ->
  enter upper_set fuel (IfStatement t b VNull) s =
  if is_multiline b then Some (Some (IfStatement t (BlockStatement [b]) VNull), s)
  else Some (None, s).
Proof. intros Ht Hb. bare_form_rule Hb. Qed.

Lemma enter_bare_while (t b : node) :
  is_expression t = true -> is_statement b = true ->
  enter upper_set fuel (WhileStatement t b) s =
  if is_multiline b then Some (Some (WhileStatement t (BlockStatement [b])), s)
  else Some (None, s).
Proof. intros Ht Hb. bare_form_rule Hb. Qed.

Lemma enter_bare_do_while (b t : node) :
  is_expression t = true -> is_statement b = true ->
  enter upper_set fuel (DoWhileStatement b t) s =
  if is_multiline b then Some (Some (DoWhileStatement (BlockStatement [b]) t), s)
  else Some (None, s).
Proof. intros Ht Hb. bare_form_rule Hb. Qed.

Lemma enter_bare_for (i t u b : node) :
  is_expression i || is_declaration i = true -> is_expression t = true ->
  is_expression u = true -> is_statement b = true ->
  enter upper_set fuel (ForStatement (VNode i) (VNode t) (VNode u) b) s =
  if is_multiline b
  then Some (Some (ForStatement (VNode i) (VNode t) (VNode u) (BlockStatement [b])), s)
  else Some (None, s).
Proof. intros Hi Ht Hu Hb. bare_form_rule Hb. Qed.

Lemma enter_bare_for_in (l r b : node) :
  is_expression l || is_declaration l = true -> is_expression r = true ->
  is_statement b = true ->
  enter upper_set fuel (ForInStatement l r b) s =
  if is_multiline b then Some (Some (ForInStatement l r (BlockStatement [b])), s)
  else Some (None, s).
Proof. intros Hl Hr Hb. bare_form_rule Hb. Qed.

Lemma enter_bare_for_of (l r b : node) :
  is_expression l || is_declaration l = true -> is_expression r = true ->
  is_statement b = true ->
  enter upper_set fuel (ForOfStatement l r b) s =
  if is_multiline b then Some (Some (ForOfStatement l r (BlockStatement [b])), s)
  else Some (None, s).
Proof. intros Hl Hr Hb. bare_form_rule Hb. Qed.

End BareForms.

(** C2 (amended): a bare-bodied [if] without [else], [while], [do]-[while],
    [for] with all three header parts, [for]-[in] or [for]-[of] statement
    has its body wrapped in a block when that body is a compound statement
    and is left as it is when the body is atomic; [if (cond) if (x) y;]
    becomes [if (cond) { if (x) y; }]. *)
Theorem enter_braces_compound_bodies (upper_set : scopes) (fuel : nat) (s : renames) :
  (forall t b, is_expression t = true -> is_statement b = true ->
     enter upper_set fuel (IfStatement t b VNull) s =
     if is_multiline b then Some (Some (IfStatement t (BlockStatement [b]) VNull), s)
     else Some (None, s)) /\
  (forall t b, is_expression t = true -> is_statement b = true ->
     enter upper_set fuel (WhileStatement t b) s =
     if is_multiline b then Some (Some (WhileStatement t (BlockStatement [b])), s)
     else Some (None, s)) /\
  (forall b t, is_expression t = true -> is_statement b = true ->
     enter upper_set fuel (DoWhileStatement b t) s =
     if is_multiline b then Some (Some (DoWhileStatement (BlockStatement [b]) t), s)
     else Some (None, s)) /\
  (forall i t u b, is_expression i || is_declaration i = true -> is_expression t = true ->
     is_expression u = true -> is_statement b = true ->
     enter upper_set fuel (ForStatement (VNode i) (VNode t) (VNode u) b) s =
     if is_multiline b
     then Some (Some (ForStatement (VNode i) (VNode t) (VNode u) (BlockStatement [b])), s)
     else Some (None, s)) /\
  (forall l r b, is_expression l || is_declaration l = true -> is_expression r = true ->
     is_statement b = true ->
     enter upper_set fuel (ForInStatement l r b) s =
     if is_multiline b then Some (Some (ForInStatement l r (BlockStatement [b])), s)
     else Some (None, s)) /\
  (forall l r b, is_expression l || is_declaration l = true -> is_expression r = true ->
     is_statement b = true ->
     enter upper_set fuel (ForOfStatement l r b) s =
     if is_multiline b then Some (Some (ForOfStatement l r (BlockStatement [b])), s)
     else Some (None, s)) /\
  rewriteCode (fun _ => []) 10 scenario3 = Some (scenario3_actual, []).
Proof.
  split; [apply enter_bare_if|]. split; [apply enter_bare_while|].
  split; [apply enter_bare_do_while|]. split; [apply enter_bare_for|].
  split; [apply enter_bare_for_in|]. split; [apply enter_bare_for_of|].
  vm_compute. reflexivity.
Qed.

(** C2 (amended), at [if (x) y;] and [while (x) if (x) y;]. *)
Lemma enter_braces_compound_bodies_witness :
  enter (fun _ => []) 0
    (IfStatement (Identifier "x") (ExpressionStatement (Identifier "y")) VNull) [] = Some (None, []) /\
  enter (fun _ => []) 0
    (WhileStatement (Identifier "x")
       (IfStatement (Identifier "x") (ExpressionStatement (Identifier "y")) VNull)) [] =
  Some (Some (WhileStatement (Identifier "x")
                (BlockStatement [IfStatement (Identifier "x")
                                   (ExpressionStatement (Identifier "y")) VNull])), []).
Proof.
  split.
  - rewrite (proj1 (enter_braces_compound_bodies (fun _ => []) 0 []) (Identifier "x")
               (ExpressionStatement (Identifier "y")) eq_refl eq_refl).
    reflexivity.
  - rewrite (proj1 (proj2 (enter_braces_compound_bodies (fun _ => []) 0 [])) (Identifier "x")
               (IfStatement (Identifier "x") (ExpressionStatement (Identifier "y")) VNull)
               eq_refl eq_refl).
    reflexivity.
Defined.

End DriverFacts.

(* ------------------------------------------------------------------ *)
(** ** The walk: containers and literal rewrites *)

Module TraversalFacts.
Import NodeInd Patterns Fill Rewrite MatchFacts PatternFacts.

(** [c] is a child of [n]: the node held by a field or an element of an
    array field. *)
Inductive child : node -> node -> Prop :=
| child_field (k : string) (fs : list (string * value)) (key : string) (c : node) :
    In (key, VNode c) fs -> child c (Node k fs)
| child_elem (k : string) (fs : list (string * value)) (key : string) (l : list node)
    (c : node) :
    In (key, VList l) fs -> In c l -> child c (Node k fs).

(** [P] holds at every node of a tree. *)
Inductive everywhere (P : node -> Prop) : node -> Prop :=
| everywhere_intro (n : node) :
    P n -> (forall c, child c n -> everywhere P c) -> everywhere P n.

Lemma everywhere_here (P : node -> Prop) (n : node) : everywhere P n -> P n.
Proof. inversion 1; assumption. Qed.

Lemma everywhere_child (P : node -> Prop) (n c : node) :
  everywhere P n -> child c n -> everywhere P c.
Proof. inversion 1; auto. Qed.

Definition is_scalar (v : value) : Prop :=
  match v with VNode _ | VList _ => False | _ => True end.

(** The shape estraverse and the [leave] hook give block-like nodes: their
    statements sit in the array [body], every other field is a scalar. *)
Definition block_shape (n : node) : Prop :=
  is_block_like (node_type n) = true ->
  forall key v, In (key, v) (node_fields n) ->
  (key = "body" /\ exists l, v = VList l) \/ (key <> "body" /\ is_scalar v).

Definition not_program (n : node) : Prop := node_type n <> "Program".

(** [!1] and [!0]. *)
Definition not_literal (n : node) : Prop :=
  n <> UnaryExpression "!" (NumLiteral 1) /\ n <> UnaryExpression "!" (NumLiteral 0).

(** Two field lists with the same keys in the same order, scalars kept and
    children related by [R]. *)
Definition value_rel (R : node -> node -> Prop) (v v' : value) : Prop :=
  match v, v' with
  | VNode c, VNode c' => R c c'
  | VList l, VList l' => Forall2 R l l'
  | VNode _, _ | VList _, _ => False
  | _, _ => v' = v
  end.

Definition fields_rel (R : node -> node -> Prop) : list (string * value) -> list (string * value) -> Prop :=
  Forall2 (fun kv kv' => fst kv' = fst kv /\ value_rel R (snd kv) (snd kv')).

(** A boolean check of [block_shape], for the templates. *)
Definition block_shapeb (n : node) : bool :=
  negb (is_block_like (node_type n)) ||
  forallb (fun kv => if String.eqb (fst kv) "body"
                     then match snd kv with VList _ => true | _ => false end
                     else match snd kv with VNode _ | VList _ => false | _ => true end)
          (node_fields n).

Fixpoint all_nodes (f : node -> bool) (n : node) {struct n} : bool :=
  match n with
  | Node _ fs =>
      f n &&
      (fix all_fields (fs : list (string * value)) : bool :=
         match fs with
         | [] => true
         | (_, VNode c) :: fs' => all_nodes f c && all_fields fs'
         | (_, VList l) :: fs' =>
             (fix all_list (l : list node) : bool :=
                match l with [] => true | c :: l' => all_nodes f c && all_list l' end) l
             && all_fields fs'
         | _ :: fs' => all_fields fs'
         end) fs
  end.

(* ---- generic facts ---- *)

Lemma Forall2_in_right {A B : Type} (R : A -> B -> Prop) (xs : list A) (ys : list B) (y : B) :
  Forall2 R xs ys -> In y ys -> exists x, In x xs /\ R x y.
Proof.
  induction 1 as [|x y' xs ys Hxy _ IH]; intros Hin; [destruct Hin|].
  destruct Hin as [<-|Hin]; [exists x; split; [left|]; auto|].
  destruct (IH Hin) as [x' [Hx' Hr]]. exists x'. split; [right|]; auto.
Qed.

Lemma Forall2_in_left {A B : Type} (R : A -> B -> Prop) (xs : list A) (ys : list B) (x : A) :
  Forall2 R xs ys -> In x xs -> exists y, In y ys /\ R x y.
Proof.
  induction 1 as [|x' y xs ys Hxy _ IH]; intros Hin; [destruct Hin|].
  destruct Hin as [<-|Hin]; [exists y; split; [left|]; auto|].
  destruct (IH Hin) as [y' [Hy' Hr]]. exists y'. split; [right|]; auto.
Qed.

Lemma get_field_In (key : string) (n : node) (v : value) :
  get_field key n = Some v -> In (key, v) (node_fields n).
Proof.
  destruct n as [k fs]. unfold get_field. simpl.
  destruct (find _ fs) as [[key' v']|] eqn:Hf; intros H; [|discriminate].
  inversion H; subst. pose proof (find_some _ _ Hf) as [Hin Hk].
  simpl in Hk. apply String.eqb_eq in Hk. subst. exact Hin.
Qed.

Lemma child_value (P : node -> Prop) (k : string) (fs : list (string * value)) (c : node) :
  Forall (fun kv => value_P P (snd kv)) fs -> child c (Node k fs) -> P c.
Proof.
  intros HF Hc. rewrite Forall_forall in HF.
  inversion Hc as [k0 fs0 key c0 Hin|k0 fs0 key l c0 Hin Hcl]; subst.
  - exact (HF _ Hin).
  - pose proof (HF _ Hin) as Hl. simpl in Hl. rewrite Forall_forall in Hl. auto.
Qed.

Lemma everywhere_fields (P : node -> Prop) (k : string) (fs : list (string * value)) :
  everywhere P (Node k fs) -> Forall (fun kv => value_P (everywhere P) (snd kv)) fs.
Proof.
  intros H. apply Forall_forall. intros [key v] Hin. simpl.
  destruct v; simpl; try exact I.
  - apply (everywhere_child P (Node k fs)); [exact H|]. eapply child_field; exact Hin.
  - apply Forall_forall. intros c Hc.
    apply (everywhere_child P (Node k fs)); [exact H|]. eapply child_elem; eauto.
Qed.

Lemma all_nodes_everywhere (f : node -> bool) (n : node) :
  all_nodes f n = true -> everywhere (fun m => f m = true) n.
Proof.
  induction n as [k fs IH] using node_ind'. intros H.
  simpl in H. apply andb_prop in H as [Hk H]. constructor; [exact Hk|].
  intros c Hc. apply (child_value (everywhere (fun m => f m = true)) k fs c); [|exact Hc].
  clear c Hc Hk.
  induction IH as [|[key v] fs Hv _ IHfs]; constructor.
  - simpl in *. destruct v; simpl in *; trivial.
    + apply andb_prop in H as [H _]. auto.
    + apply andb_prop in H as [H _]. clear IHfs. revert H.
      induction Hv as [|c l Hc _ IHl]; intros H; constructor; simpl in H;
        apply andb_prop in H as [H1 H2]; auto.
  - apply IHfs. simpl in H. destruct v; try exact H; apply andb_prop in H as [_ H]; exact H.
Qed.

Lemma block_shapeb_sound (n : node) : block_shapeb n = true -> block_shape n.
Proof.
  unfold block_shapeb, block_shape. intros H Hb key v Hin.
  rewrite Hb in H. simpl in H. rewrite forallb_forall in H.
  specialize (H _ Hin). simpl in H.
  destruct (String.eqb key "body") eqn:Hk.
  - apply String.eqb_eq in Hk. left. split; [exact Hk|].
    destruct v; try discriminate. eexists; reflexivity.
  - apply String.eqb_neq in Hk. right. split; [exact Hk|]. destruct v; try discriminate; exact I.
Qed.

Lemma fields_rel_child (R : node -> node -> Prop) (k : string) (fs fs' : list (string * value))
    (c' : node) :
  fields_rel R fs fs' -> child c' (Node k fs') -> exists c, child c (Node k fs) /\ R c c'.
Proof.
  intros Hr Hc. inversion Hc as [k0 fs0 key c0 Hin1|k0 fs0 key l c0 Hin1 Hcl]; subst.
  - destruct (Forall2_in_right _ _ _ _ Hr Hin1) as [[key0 v] [Hin [_ Hv]]].
    simpl in Hv. destruct v; try contradiction; try discriminate.
    exists n. split; [eapply child_field; exact Hin|exact Hv].
  - destruct (Forall2_in_right _ _ _ _ Hr Hin1) as [[key0 v] [Hin [_ Hv]]].
    simpl in Hv. destruct v; try contradiction; try discriminate.
    destruct (Forall2_in_right _ _ _ _ Hv Hcl) as [c [Hc0 Hr0]].
    exists c. split; [eapply child_elem; eauto|exact Hr0].
Qed.

Lemma fields_rel_block_shape (R : node -> node -> Prop) (k : string) (fs fs' : list (string * value)) :
  fields_rel R fs fs' -> block_shape (Node k fs) -> block_shape (Node k fs').
Proof.
  intros Hr Hb Hk key v' Hin. simpl in *.
  destruct (Forall2_in_right _ _ _ _ Hr Hin) as [[key0 v] [Hin0 [Hkey Hv]]].
  simpl in Hkey, Hv. subst key0.
  destruct (Hb Hk key v Hin0) as [[Hbody [l Hl]]|[Hbody Hs]].
  - subst v. destruct v'; simpl in Hv; try contradiction.
    left. split; [exact Hbody|]. eexists; reflexivity.
  - right. split; [exact Hbody|]. destruct v; simpl in Hv; try contradiction; subst v'; exact I.
Qed.

Lemma block_shape_not_block (n : node) : is_block_like (node_type n) = false -> block_shape n.
Proof. intros H H'. congruence. Qed.

Lemma child_set_type (c : node) (k : string) (n : node) :
  child c (set_type k n) -> child c n.
Proof.
  destruct n as [k' fs]. unfold set_type. simpl. intros H.
  inversion H as [k0 fs0 key c0 Hin|k0 fs0 key l c0 Hin Hcl]; subst.
  - eapply child_field; eauto.
  - eapply child_elem; eauto.
Qed.

Lemma child_set_field (c : node) (key : string) (v : value) (n : node) :
  child c (set_field key v n) ->
  (exists key', key' <> key /\
     (In (key', VNode c) (node_fields n) \/
      exists l, In (key', VList l) (node_fields n) /\ In c l)) \/
  v = VNode c \/ (exists l, v = VList l /\ In c l).
Proof.
  destruct n as [k fs]. simpl. intros H.
  inversion H as [k0 fs0 key1 c0 Hin1|k0 fs0 key1 l0 c0 Hin1 Hcl]; subst.
  - apply in_map_iff in Hin1 as [[key' v'] [Heq Hin]]. simpl in Heq.
    destruct (String.eqb key' key) eqn:Hk.
    + inversion Heq; subst. right. left. reflexivity.
    + inversion Heq; subst. left. exists key1. split; [apply String.eqb_neq; exact Hk|].
      left. exact Hin.
  - apply in_map_iff in Hin1 as [[key' v'] [Heq Hin]]. simpl in Heq.
    destruct (String.eqb key' key) eqn:Hk.
    + inversion Heq; subst. right. right. exists l0. auto.
    + inversion Heq; subst. left. exists key1. split; [apply String.eqb_neq; exact Hk|].
      right. exists l0. auto.
Qed.

Lemma block_shape_set_field (key : string) (v : value) (n : node) :
  block_shape n ->
  (key = "body" /\ (exists l, v = VList l)) \/ (key <> "body" /\ is_scalar v) ->
  block_shape (set_field key v n).
Proof.
  destruct n as [k fs]. unfold block_shape. simpl. intros Hb Hv Hk key' v' Hin.
  apply in_map_iff in Hin as [[key0 v0] [Heq Hin]]. simpl in Heq.
  destruct (String.eqb key0 key) eqn:E.
  - inversion Heq; subst. exact Hv.
  - inversion Heq; subst. exact (Hb Hk _ _ Hin).
Qed.

Lemma node_type_set_field (key : string) (v : value) (n : node) :
  node_type (set_field key v n) = node_type n.
Proof. destruct n; reflexivity. Qed.

Lemma node_type_set_id_name (nm : string) (n : node) :
  node_type (set_id_name nm n) = node_type n.
Proof.
  unfold set_id_name. destruct (get_field "id" n) as [[]|]; try reflexivity.
  apply node_type_set_field.
Qed.

(* ---- the walk ---- *)

Section Walk.
Variable upper_set : scopes.

Lemma visit_list_rel (V : node -> renames -> option (node * renames)) (l l' : list node)
    (s s' : renames) :
  visit_list V l s = Some (l', s') ->
  Forall2 (fun c c' => exists s1 s2, V c s1 = Some (c', s2)) l l'.
Proof.
  revert l' s. induction l as [|c l IH]; intros l' s H; simpl in H.
  - inversion H; subst. constructor.
  - destruct (V c s) as [[c' s1]|] eqn:Hc; [|discriminate].
    destruct (visit_list V l s1) as [[l'' s2]|] eqn:Hl; [|discriminate].
    inversion H; subst. constructor; [exists s, s1; exact Hc|eapply IH; exact Hl].
Qed.

Lemma visit_fields_rel (V : node -> renames -> option (node * renames))
    (fs fs' : list (string * value)) (s s' : renames) :
  visit_fields V fs s = Some (fs', s') ->
  fields_rel (fun c c' => exists s1 s2, V c s1 = Some (c', s2)) fs fs'.
Proof.
  revert fs' s. induction fs as [|[key v] fs IH]; intros fs' s H; simpl in H.
  - inversion H; subst. constructor.
  - destruct (match v with
              | VNode c => match V c s with Some (c', s1) => Some (VNode c', s1) | None => None end
              | VList l => match visit_list V l s with
                           | Some (l', s1) => Some (VList l', s1) | None => None end
              | v => Some (v, s)
              end) as [[v' s1]|] eqn:Hv; [|discriminate].
    destruct (visit_fields V fs s1) as [[fs'' s2]|] eqn:Hf; [|discriminate].
    inversion H; subst. constructor; [|eapply IH; exact Hf].
    simpl. split; [reflexivity|].
    destruct v; try (inversion Hv; subst; reflexivity).
    + destruct (V n s) as [[c' s3]|] eqn:Hc; inversion Hv; subst. simpl. do 2 eexists. exact Hc.
    + destruct (visit_list V l s) as [[l' s3]|] eqn:Hl; inversion Hv; subst. simpl.
      eapply visit_list_rel; exact Hl.
Qed.

(** One step of the walk, taken apart. *)
Lemma visit_inv (fuel : nat) (parent : option string) (n n' : node) (s s' : renames) :
  visit upper_set (Datatypes.S fuel) parent n s = Some (n', s') ->
  exists m fs' s1 s2,
    (enter upper_set fuel n s = Some (Some m, s1) \/
     (enter upper_set fuel n s = Some (None, s1) /\ m = n)) /\
    visit_fields (visit upper_set fuel (Some (node_type m))) (node_fields m) s1 = Some (fs', s2) /\
    n' = leave (match parent with Some p => p | None => node_type m end) (Node (node_type m) fs').
Proof.
  simpl. destruct (enter upper_set fuel n s) as [[r s1]|] eqn:He; [|discriminate].
  set (m := match r with Some m => m | None => n end).
  destruct (visit_fields _ (node_fields m) s1) as [[fs' s2]|] eqn:Hf; [|discriminate].
  intros H. injection H as Hn Hs. subst n' s'. exists m, fs', s1, s2. split; [|split; [exact Hf|reflexivity]].
  destruct r; [left; reflexivity|right; split; reflexivity].
Qed.

End Walk.

Lemma child_node_field (n c : node) (key : string) :
  In (key, VNode c) (node_fields n) -> child c n.
Proof. destruct n. simpl. apply child_field. Qed.

Lemma child_list_field (n c : node) (key : string) (l : list node) :
  In (key, VList l) (node_fields n) -> In c l -> child c n.
Proof. destruct n. simpl. apply child_elem. Qed.

Lemma everywhere_mono (P Q : node -> Prop) (n : node) :
  (forall x, P x -> Q x) -> everywhere P n -> everywhere Q n.
Proof.
  intros HPQ H. induction H as [n Hn _ IH]. constructor; [apply HPQ; exact Hn|exact IH].
Qed.

Lemma fields_rel_cons_inv (R : node -> node -> Prop) (fs : list (string * value))
    (kv' : string * value) (fs' : list (string * value)) :
  fields_rel R fs (kv' :: fs') ->
  exists key v fs0, fs = (key, v) :: fs0 /\ fst kv' = key /\ value_rel R v (snd kv') /\
                    fields_rel R fs0 fs'.
Proof.
  intros H. inversion H as [|[key v] ? fs0 ? [Hk Hv] Hr]; subst.
  exists key, v, fs0. auto.
Qed.

Lemma fields_rel_nil_inv (R : node -> node -> Prop) (fs : list (string * value)) :
  fields_rel R fs [] -> fs = [].
Proof. intros H. inversion H. reflexivity. Qed.

Lemma body_of_child (x z : node) : In z (body_of x) -> child z x.
Proof.
  unfold body_of. destruct (get_field "body" x) as [[| | | | |l]|] eqn:Hg; try (intros []).
  intros Hz. apply get_field_In in Hg. eapply child_list_field; eauto.
Qed.

(* ---- sizes and the splicing loop ---- *)

Lemma node_size_Node (k : string) (fs : list (string * value)) :
  node_size (Node k fs) = Datatypes.S (fields_size fs).
Proof. reflexivity. Qed.

Lemma list_size_cons (x : node) (l : list node) :
  list_size (x :: l) = node_size x + list_size l.
Proof. reflexivity. Qed.

Lemma list_size_app (a b : list node) : list_size (a ++ b) = list_size a + list_size b.
Proof.
  induction a as [|c a IH]; [reflexivity|].
  simpl app. rewrite !list_size_cons, IH. lia.
Qed.

Lemma fields_size_In (fs : list (string * value)) (key : string) (l : list node) :
  In (key, VList l) fs -> list_size l <= fields_size fs.
Proof.
  induction fs as [|[k v] fs IH]; intros Hin; [destruct Hin|].
  destruct Hin as [Heq|Hin].
  - inversion Heq; subst. simpl. lia.
  - specialize (IH Hin). destruct v; simpl; lia.
Qed.

Lemma node_size_pos (x : node) : 1 <= node_size x.
Proof. destruct x. rewrite node_size_Node. lia. Qed.

Lemma body_of_size (x : node) : list_size (body_of x) < node_size x.
Proof.
  pose proof (node_size_pos x) as Hpos.
  unfold body_of. destruct (get_field "body" x) as [[| | | | |l]|] eqn:Hg;
    try (simpl; lia).
  apply get_field_In in Hg. destruct x as [k fs]. rewrite node_size_Node.
  pose proof (fields_size_In fs "body" l Hg). lia.
Qed.

Lemma splice_loop_done (fuel : nat) (done rest : list node) :
  splice_loop fuel done rest = (rev done ++ splice_loop fuel [] rest)%list.
Proof.
  revert done rest. induction fuel as [|fuel IH]; intros done rest; simpl; [reflexivity|].
  destruct rest as [|x rest]; [rewrite app_nil_r; reflexivity|].
  destruct (String.eqb (node_type x) "Program").
  - apply IH.
  - rewrite (IH (x :: done)), (IH [x]). simpl. rewrite <- app_assoc. reflexivity.
Qed.

Lemma splice_loop_fuel (fuel fuel' : nat) (rest : list node) :
  list_size rest < fuel -> list_size rest < fuel' ->
  splice_loop fuel [] rest = splice_loop fuel' [] rest.
Proof.
  revert fuel' rest. induction fuel as [|fuel IH]; intros fuel' rest H1 H2; [lia|].
  destruct fuel' as [|fuel']; [lia|]. simpl.
  destruct rest as [|x rest]; [reflexivity|].
  pose proof (node_size_pos x). pose proof (body_of_size x).
  rewrite list_size_cons in H1, H2.
  destruct (String.eqb (node_type x) "Program").
  - apply IH; rewrite list_size_app; lia.
  - rewrite (splice_loop_done fuel), (splice_loop_done fuel'). f_equal. apply IH; lia.
Qed.

Lemma flatten_body_nil : flatten_body [] = [].
Proof. reflexivity. Qed.

Lemma flatten_body_cons_stmt (x : node) (l : list node) :
  String.eqb (node_type x) "Program" = false ->
  flatten_body (x :: l) = x :: flatten_body l.
Proof.
  intros Hx. unfold flatten_body at 1. cbn [splice_loop]. rewrite Hx.
  rewrite splice_loop_done. simpl rev. simpl app. f_equal. unfold flatten_body.
  pose proof (node_size_pos x). pose proof (list_size_cons x l).
  apply splice_loop_fuel; lia.
Qed.

Lemma flatten_body_cons_program (x : node) (l : list node) :
  String.eqb (node_type x) "Program" = true ->
  flatten_body (x :: l) = flatten_body (body_of x ++ l).
Proof.
  intros Hx. unfold flatten_body at 1. cbn [splice_loop]. rewrite Hx. unfold flatten_body.
  pose proof (body_of_size x). pose proof (list_size_cons x l).
  apply splice_loop_fuel; rewrite list_size_app; lia.
Qed.

Lemma splice_loop_preserves (Q Q' : node -> Prop) :
  (forall x, Q x -> String.eqb (node_type x) "Program" = true -> Forall Q (body_of x)) ->
  (forall x, Q x -> String.eqb (node_type x) "Program" = false -> Q' x) ->
  forall fuel done rest, list_size rest < fuel -> Forall Q rest -> Forall Q' done ->
  Forall Q' (splice_loop fuel done rest).
Proof.
  intros HP HS fuel. induction fuel as [|fuel IH]; intros done rest Hf Hr Hd; [lia|].
  simpl. destruct rest as [|x rest]; [apply Forall_rev; exact Hd|].
  inversion Hr as [|? ? Hx Hrest]; subst.
  pose proof (node_size_pos x). pose proof (body_of_size x). rewrite list_size_cons in Hf.
  destruct (String.eqb (node_type x) "Program") eqn:Hp.
  - apply IH; [rewrite list_size_app; lia|apply Forall_app; split; auto|exact Hd].
  - apply IH; [lia|exact Hrest|constructor; auto].
Qed.

Lemma flatten_body_preserves (Q Q' : node -> Prop) (l : list node) :
  (forall x, Q x -> String.eqb (node_type x) "Program" = true -> Forall Q (body_of x)) ->
  (forall x, Q x -> String.eqb (node_type x) "Program" = false -> Q' x) ->
  Forall Q l -> Forall Q' (flatten_body l).
Proof.
  intros HP HS Hl. apply splice_loop_preserves with Q; auto.
Qed.

(* ---- the leave hook ---- *)

Lemma leave_block_like (pt : string) (n : node) :
  is_block_like (node_type (leave pt n)) = is_block_like (node_type n).
Proof.
  unfold leave. cbv zeta.
  remember (if String.eqb (node_type n) "Program" && negb (is_block_like pt)
            then set_type "BlockStatement" n else n) as n1 eqn:Hn1.
  assert (H1 : is_block_like (node_type n1) = is_block_like (node_type n)).
  { destruct (String.eqb (node_type n) "Program" && negb (is_block_like pt)) eqn:Hc;
      subst n1; [|reflexivity].
    apply andb_prop in Hc as [Hp _]. apply String.eqb_eq in Hp.
    destruct n as [k fs]. simpl in *. subst k. reflexivity. }
  destruct (is_block_like (node_type n1)) eqn:Hb; [|congruence].
  destruct (get_field "body" n1) as [[| | | | |l]|]; try congruence.
  rewrite node_type_set_field. congruence.
Qed.

Lemma leave_other (pt : string) (n : node) :
  is_block_like (node_type n) = false -> leave pt n = n.
Proof.
  intros Hb. unfold leave. cbv zeta.
  assert (Hp : String.eqb (node_type n) "Program" = false).
  { unfold is_block_like in Hb. apply orb_false_elim in Hb as [_ Hp]. exact Hp. }
  rewrite Hp. cbn [andb]. rewrite Hb. reflexivity.
Qed.

Lemma leave_children_everywhere (P : node -> Prop) (pt : string) (m : node) :
  (forall c, child c m -> everywhere P c) -> forall c, child c (leave pt m) -> everywhere P c.
Proof.
  intros Hm. unfold leave. cbv zeta.
  remember (if String.eqb (node_type m) "Program" && negb (is_block_like pt)
            then set_type "BlockStatement" m else m) as n1 eqn:Hn1.
  assert (H1 : forall c, child c n1 -> everywhere P c).
  { intros c Hc. destruct (String.eqb (node_type m) "Program" && negb (is_block_like pt));
      subst n1; [apply child_set_type in Hc|]; auto. }
  destruct (is_block_like (node_type n1)); [|exact H1].
  destruct (get_field "body" n1) as [[| | | | |l]|] eqn:Hg; try exact H1.
  assert (Hl : Forall (everywhere P) (flatten_body l)).
  { apply flatten_body_preserves with (everywhere P).
    - intros x Hx _. apply Forall_forall. intros z Hz.
      eapply everywhere_child; [exact Hx|apply body_of_child; exact Hz].
    - intros x Hx _. exact Hx.
    - apply Forall_forall. intros x Hx. apply H1. apply get_field_In in Hg.
      eapply child_list_field; eauto. }
  intros c Hc.
  apply child_set_field in Hc as [(key' & Hk & [Hin|(l' & Hin & Hcl)])|[Hv|(l' & Hv & Hcl)]].
  - apply H1. eapply child_node_field; eauto.
  - apply H1. eapply child_list_field; eauto.
  - discriminate.
  - inversion Hv; subst. rewrite Forall_forall in Hl. auto.
Qed.

(** A tree every node of which is in [block_shape], with no container
    strictly below its root. *)
Definition clean (x : node) : Prop :=
  everywhere block_shape x /\ (forall d, child d x -> everywhere not_program d).

Lemma block_body (n c : node) :
  block_shape n -> is_block_like (node_type n) = true -> child c n ->
  exists l, get_field "body" n = Some (VList l).
Proof.
  intros Hs Hb Hc. destruct n as [k fs].
  inversion Hc as [k0 fs0 key c0 Hin|k0 fs0 key l c0 Hin Hcl]; subst.
  - destruct (Hs Hb _ _ Hin) as [[_ [l Hl]]|[_ Hsc]]; [discriminate|contradiction].
  - destruct (Hs Hb _ _ Hin) as [[Hk _]|[_ Hsc]]; [subst key|contradiction].
    unfold get_field. simpl.
    destruct (find (fun kv => String.eqb (fst kv) "body") fs) as [[k' v']|] eqn:Hf.
    + pose proof (find_some _ _ Hf) as [Hin' Hk']. simpl in Hk'. apply String.eqb_eq in Hk'.
      subst k'. destruct (Hs Hb _ _ Hin') as [[_ [l' Hl']]|[Hne _]]; [subst; eauto|congruence].
    + pose proof (find_none _ _ Hf _ Hin) as Hn. simpl in Hn.
      rewrite ?String.eqb_refl in Hn. discriminate.
Qed.

Lemma set_body_children (n c : node) (l : list node) :
  block_shape n -> is_block_like (node_type n) = true ->
  child c (set_field "body" (VList l) n) -> In c l.
Proof.
  intros Hs Hb Hc.
  apply child_set_field in Hc as [(key' & Hk & [Hin|(l' & Hin & Hcl)])|[Hv|(l' & Hv & Hcl)]].
  - destruct (Hs Hb _ _ Hin) as [[He _]|[_ Hsc]]; [congruence|contradiction].
  - destruct (Hs Hb _ _ Hin) as [[He _]|[_ Hsc]]; [congruence|contradiction].
  - discriminate.
  - inversion Hv; subst. exact Hcl.
Qed.

Lemma leave_clean (pt : string) (m : node) :
  everywhere block_shape m ->
  (forall c, child c m -> clean c /\ (node_type c = "Program" -> is_block_like (node_type m) = true)) ->
  clean (leave pt m) /\ (node_type (leave pt m) = "Program" -> is_block_like pt = true).
Proof.
  intros Hm Hch. unfold leave. cbv zeta.
  remember (if String.eqb (node_type m) "Program" && negb (is_block_like pt)
            then set_type "BlockStatement" m else m) as n1 eqn:Hn1.
  assert (HA : everywhere block_shape n1 /\ (forall c, child c n1 -> child c m) /\
               is_block_like (node_type n1) = is_block_like (node_type m) /\
               (node_type n1 = "Program" -> is_block_like pt = true)).
  { destruct (String.eqb (node_type m) "Program" && negb (is_block_like pt)) eqn:Hc; subst n1.
    - apply andb_prop in Hc as [Hp _]. apply String.eqb_eq in Hp.
      destruct m as [k fs]. simpl in Hp. subst k. unfold set_type. simpl.
      split; [|split; [|split]].
      + constructor.
        * intros _. apply (everywhere_here _ _ Hm). reflexivity.
        * intros c Hc. eapply everywhere_child; [exact Hm|]. exact (child_set_type c "BlockStatement" (Node "Program" fs) Hc).
      + intros c Hc. exact (child_set_type c "BlockStatement" (Node "Program" fs) Hc).
      + reflexivity.
      + discriminate.
    - split; [exact Hm|]. split; [auto|]. split; [reflexivity|].
      intros Hp. rewrite Hp in Hc. simpl in Hc. destruct (is_block_like pt); [reflexivity|discriminate]. }
  destruct HA as (Hn1w & Hn1c & Hn1b & Hn1p).
  destruct (is_block_like (node_type n1)) eqn:Hb.
  - destruct (get_field "body" n1) as [[| | | | |l]|] eqn:Hg;
      try (split; [split; [exact Hn1w|]|exact Hn1p];
           intros d Hd; destruct (block_body n1 d (everywhere_here _ _ Hn1w) Hb Hd) as [l Hl];
           congruence).
    assert (Hl : Forall (fun y => everywhere block_shape y /\ everywhere not_program y) (flatten_body l)).
    { apply flatten_body_preserves with clean.
      - intros x [Hxw Hxc] _. apply Forall_forall. intros z Hz.
        pose proof (body_of_child _ _ Hz) as Hzx. split.
        + eapply everywhere_child; [exact Hxw|exact Hzx].
        + intros d Hd. eapply everywhere_child; [exact (Hxc _ Hzx)|exact Hd].
      - intros x [Hxw Hxc] Hp. split; [exact Hxw|].
        constructor; [apply String.eqb_neq; exact Hp|exact Hxc].
      - apply Forall_forall. intros x Hx. apply get_field_In in Hg.
        apply (Hch x). apply Hn1c. eapply child_list_field; eauto. }
    rewrite Forall_forall in Hl.
    assert (Hs : block_shape n1) by exact (everywhere_here _ _ Hn1w).
    split; [split|].
    + constructor.
      * apply block_shape_set_field; [exact Hs|left; split; [reflexivity|eexists; reflexivity]].
      * intros c Hc. apply Hl. exact (set_body_children _ _ _ Hs Hb Hc).
    + intros d Hd. apply Hl. exact (set_body_children _ _ _ Hs Hb Hd).
    + rewrite node_type_set_field. exact Hn1p.
  - split; [split; [exact Hn1w|]|exact Hn1p].
    intros d Hd. destruct (Hch d (Hn1c d Hd)) as [[Hdw Hdc] Hdp].
    constructor; [|exact Hdc].
    intros Hp. specialize (Hdp Hp). congruence.
Qed.

(* ---- environments and templates ---- *)

Lemma bind_lookup (k : string) (b : binding) (e e' : env) (k' : string) (b' : binding) :
  bind k b e = Some e' -> lookup k' e' = Some b' -> lookup k' e = Some b' \/ b' = b.
Proof.
  unfold bind. destruct (lookup k e) as [b0|] eqn:Hk.
  - destruct (binding_eqb b b0); intros H; inversion H; subst; auto.
  - intros H. inversion H; subst. simpl.
    destruct (String.eqb k' k); intros H'; [right; congruence|left; exact H'].
Qed.

Definition env_ok (P : node -> Prop) (e : env) : Prop :=
  forall k m, lookup k e = Some (BNode m) -> everywhere P m.

(** The nodes a match binds are subtrees of the matched node. *)
Lemma match_node_env_ok (P : node -> Prop) (p : node) :
  forall n e e', match_node p n e = Some e' -> everywhere P n -> env_ok P e -> env_ok P e'.
Proof.
  induction p as [pk pfs IH] using node_ind'. intros n e e' H Hn He.
  destruct (is_placeholder_kind pk) eqn:Hph.
  - simpl in H.
    destruct (String.eqb pk "GenericPlaceholder") eqn:Hg.
    { destruct (String.eqb (node_type n) "Identifier"); [|discriminate].
      intros k m Hl. destruct (bind_lookup _ _ _ _ _ _ H Hl) as [Hl'|Hb];
        [exact (He _ _ Hl')|discriminate]. }
    destruct (String.eqb pk "StatementPlaceholder") eqn:Hs.
    { destruct (_ && _); [|discriminate]. intros k m Hl.
      destruct (bind_lookup _ _ _ _ _ _ H Hl) as [Hl'|Hb];
        [exact (He _ _ Hl')|inversion Hb; subst; exact Hn]. }
    destruct (String.eqb pk "ExpressionPlaceholder") eqn:Hx.
    { destruct (_ || _); [|discriminate]. intros k m Hl.
      destruct (bind_lookup _ _ _ _ _ _ H Hl) as [Hl'|Hb];
        [exact (He _ _ Hl')|inversion Hb; subst; exact Hn]. }
    unfold is_placeholder_kind in Hph. rewrite Hg, Hs, Hx in Hph. discriminate.
  - rewrite match_node_Node in H by exact Hph. destruct n as [nk nfs].
    destruct (String.eqb pk nk); [|discriminate].
    apply everywhere_fields in Hn.
    revert nfs e H Hn He. induction IH as [|[k1 v1] pfs Hv _ IHfs];
      intros [|[k2 v2] nfs] e H Hn He; simpl in H; try discriminate.
    + inversion H; subst; exact He.
    + destruct (String.eqb k1 k2); [|discriminate].
      destruct (match_value v1 v2 e) as [e1|] eqn:Hm; [|discriminate].
      inversion Hn as [|? ? Hv2 Hn']; subst.
      apply (IHfs nfs e1 H Hn').
      simpl in Hv, Hv2. destruct v1, v2; simpl in Hm; try discriminate;
        try (match type of Hm with (if ?c then _ else _) = _ =>
               destruct c; inversion Hm; subst; exact He end).
      * inversion Hm; subst; exact He.
      * eapply Hv; eauto.
      * clear H IHfs Hn Hn'. revert l0 e Hm Hv2 He.
        induction Hv as [|c l Hc _ IHl]; intros [|c' l'] e Hm Hv2 He;
          simpl in Hm; try discriminate.
        -- inversion Hm; subst; exact He.
        -- destruct (match_node c c' e) as [e2|] eqn:Hc'; [|discriminate].
           inversion Hv2 as [|? ? Hc'w Hl'w]; subst.
           eapply IHl; [exact Hm|exact Hl'w|]. eapply Hc; eauto.
Qed.

Lemma fill_list_rel (e : env) (l l' : list node) :
  fill_list e l = Some l' -> Forall2 (fun c c' => fill c e = Some c') l l'.
Proof.
  revert l'. induction l as [|c l IH]; intros l' H; simpl in H.
  - inversion H; subst; constructor.
  - destruct (fill c e) as [c'|] eqn:Hc; [|discriminate].
    destruct (fill_list e l) as [l''|] eqn:Hl; [|discriminate].
    inversion H; subst. constructor; [exact Hc|apply IH; reflexivity].
Qed.

Lemma fill_fields_rel (e : env) (fs fs' : list (string * value)) :
  fill_fields e fs = Some fs' -> fields_rel (fun c c' => fill c e = Some c') fs fs'.
Proof.
  revert fs'. induction fs as [|[key v] fs IH]; intros fs' H; simpl in H.
  - inversion H; subst; constructor.
  - destruct v;
      [| | | |destruct (fill n e) as [c'|] eqn:Hc; [|discriminate]
             |destruct (fill_list e l) as [l'|] eqn:Hl; [|discriminate]];
      destruct (fill_fields e fs) as [fs''|] eqn:Hf; try discriminate;
      inversion H; subst; constructor; try (apply IH; reflexivity); simpl; split; auto.
    apply fill_list_rel. exact Hl.
Qed.

Lemma fill_wf (t : node) : forall e t', fill t e = Some t' ->
  everywhere block_shape t -> env_ok block_shape e -> everywhere block_shape t'.
Proof.
  induction t as [k fs IH] using node_ind'. intros e t' H Ht He.
  destruct (is_placeholder_kind k) eqn:Hph.
  - cbn -[str_field lookup] in H.
    destruct (String.eqb k "GenericPlaceholder") eqn:Hg.
    { destruct (lookup _ e) as [[s0|m0]|]; inversion H; subst.
      constructor; [apply block_shape_not_block; reflexivity|].
      intros c Hc. unfold Identifier in Hc.
      inversion Hc as [k0 fs0 key c0 Hin|k0 fs0 key l c0 Hin Hcl]; subst;
        destruct Hin as [Heq|[]]; discriminate. }
    destruct (String.eqb k "StatementPlaceholder" || String.eqb k "ExpressionPlaceholder") eqn:Hse.
    { destruct (lookup _ e) as [[s0|m0]|] eqn:Hl; inversion H; subst. exact (He _ _ Hl). }
    unfold is_placeholder_kind in Hph. rewrite Hg in Hph. simpl in Hph.
    rewrite Hse in Hph. discriminate.
  - rewrite fill_Node in H by exact Hph.
    destruct (fill_fields e fs) as [fs'|] eqn:Hf; inversion H; subst.
    pose proof (fill_fields_rel _ _ _ Hf) as Hr.
    constructor; [eapply fields_rel_block_shape; [exact Hr|exact (everywhere_here _ _ Ht)]|].
    intros c' Hc'. destruct (fields_rel_child _ _ _ _ _ Hr Hc') as [c [Hc Hfc]].
    exact (child_value _ k fs c IH Hc e c' Hfc (everywhere_child _ _ _ Ht Hc) He).
Qed.

Lemma set_id_name_wf (nm : string) (r : node) :
  everywhere block_shape r -> is_block_like (node_type r) = false ->
  everywhere block_shape (set_id_name nm r).
Proof.
  intros Hr Hb. unfold set_id_name.
  destruct (get_field "id" r) as [[| | | |i|]|] eqn:Hg; try exact Hr.
  apply get_field_In in Hg.
  assert (Hi : everywhere block_shape i).
  { eapply everywhere_child; [exact Hr|]. eapply child_node_field; exact Hg. }
  assert (Hi' : everywhere block_shape (set_field "name" (VStr nm) i)).
  { constructor.
    - apply block_shape_set_field; [exact (everywhere_here _ _ Hi)|].
      right. split; [discriminate|exact I].
    - intros c Hc.
      apply child_set_field in Hc as [(key' & _ & [Hin|(l & Hin & Hcl)])|[Hv|(l & Hv & _)]];
        try discriminate.
      + eapply everywhere_child; [exact Hi|]. eapply child_node_field; exact Hin.
      + eapply everywhere_child; [exact Hi|]. eapply child_list_field; eauto. }
  constructor.
  - apply block_shape_not_block. rewrite node_type_set_field. exact Hb.
  - intros c Hc.
    apply child_set_field in Hc as [(key' & _ & [Hin|(l & Hin & Hcl)])|[Hv|(l & Hv & _)]].
    + eapply everywhere_child; [exact Hr|]. eapply child_node_field; exact Hin.
    + eapply everywhere_child; [exact Hr|]. eapply child_list_field; eauto.
    + inversion Hv; subst. exact Hi'.
    + discriminate.
Qed.

Lemma rule_templates_wf : Forall (fun pr => everywhere block_shape (snd pr)) rewritePatterns.
Proof.
  assert (H : forallb (fun pr => all_nodes block_shapeb (snd pr)) rewritePatterns = true)
    by (vm_compute; reflexivity).
  rewrite forallb_forall in H. apply Forall_forall. intros pr Hin.
  apply (everywhere_mono (fun m => block_shapeb m = true)); [exact block_shapeb_sound|].
  apply all_nodes_everywhere. exact (H pr Hin).
Qed.

(** What a replacement can look like at its root. *)
Definition rule_top (x : node) : Prop :=
  x = BoolLiteral false \/ x = BoolLiteral true \/ x = Identifier "undefined" \/
  (node_type x <> "UnaryExpression" /\ node_type x <> "Literal").

Lemma fill_type (t : node) (e : env) (x : node) :
  is_placeholder_kind (node_type t) = false -> fill t e = Some x -> node_type x = node_type t.
Proof.
  destruct t as [k fs]. intros Hph H. rewrite fill_Node in H by exact Hph.
  destruct (fill_fields e fs); inversion H; reflexivity.
Qed.

Lemma rule_results (p r : node) (e : env) (x : node) :
  In (p, r) rewritePatterns -> fill r e = Some x -> rule_top x.
Proof.
  intros Hin Hf. unfold rewritePatterns in Hin.
  repeat (destruct Hin as [Heq|Hin]; [injection Heq as _ <-|]); try destruct Hin;
    first
      [ apply fill_type in Hf; [|reflexivity];
        right; right; right; rewrite Hf; simpl; split; discriminate
      | cbv in Hf; injection Hf as <-;
        first [left; reflexivity|right; left; reflexivity|right; right; left; reflexivity] ].
Qed.

Section Walk2.
Variable upper_set : scopes.

Lemma apply_rules_some (f : nat) (rules : list (node * node)) (n m : node) (s s' : renames) :
  apply_rules upper_set f rules n s = Some (Some m, s') ->
  exists p r env result, In (p, r) rules /\ matches p n = Some env /\ fill r env = Some result /\
    (m = result \/ (node_type result = "FunctionDeclaration" /\ exists nm, m = set_id_name nm result)).
Proof.
  induction rules as [|[p r] rules IH]; simpl; intros H; [discriminate|].
  destruct (matches p n) as [env|] eqn:Hm.
  - destruct (fill r env) as [result|] eqn:Hf; [|discriminate].
    exists p, r, env, result. split; [left; reflexivity|]. split; [exact Hm|]. split; [exact Hf|].
    unfold replace_with in H. destruct (_ && _) eqn:Hc.
    + right. apply andb_prop in Hc as [_ Hr]. apply String.eqb_eq in Hr. split; [exact Hr|].
      destruct (id_name n), (id_name result); try discriminate.
      destruct (fresh_name _ _ _ _ _) as [nn|]; [|discriminate].
      inversion H; subst. exists nn; reflexivity.
    + inversion H; subst. left; reflexivity.
  - destruct (IH H) as (p' & r' & env & result & Hin & Hrest).
    exists p', r', env, result. split; [right; exact Hin|exact Hrest].
Qed.

Lemma apply_rules_none_inv (f : nat) (rules : list (node * node)) (n : node) (s s' : renames) :
  apply_rules upper_set f rules n s = Some (None, s') ->
  Forall (fun pr => matches (fst pr) n = None) rules.
Proof.
  induction rules as [|[p r] rules IH]; simpl; intros H; [constructor|].
  destruct (matches p n) as [env|] eqn:Hm.
  - destruct (fill r env) as [result|]; [|discriminate].
    unfold replace_with in H. destruct (_ && _); [|discriminate].
    destruct (id_name n), (id_name result); try discriminate.
    destruct (fresh_name _ _ _ _ _); discriminate.
  - constructor; [exact Hm|exact (IH H)].
Qed.

Lemma enter_wf (f : nat) (n m : node) (s s' : renames) :
  everywhere block_shape n -> enter upper_set f n s = Some (Some m, s') ->
  everywhere block_shape m.
Proof.
  intros Hn H. unfold enter in H. destruct (is_sequence_statement n) eqn:Hseq.
  - inversion H; subst. clear H.
    assert (Hitems : forall x, In x (sequence_items n) -> everywhere block_shape x).
    { intros x Hx. unfold sequence_items in Hx.
      destruct (get_field "expression" n) as [[| | | |y|]|] eqn:Hy; try destruct Hx.
      destruct (get_field "expressions" y) as [[| | | | |l]|] eqn:Hl; try destruct Hx.
      apply get_field_In in Hy, Hl.
      apply (everywhere_child _ y).
      - apply (everywhere_child _ n); [exact Hn|]. eapply child_node_field; exact Hy.
      - eapply child_list_field; [exact Hl|exact Hx]. }
    constructor.
    + intros _ key v Hin. destruct Hin as [Heq|[]]. inversion Heq; subst.
      left. split; [reflexivity|eexists; reflexivity].
    + intros c Hc. unfold Program in Hc.
      inversion Hc as [k0 fs0 key c0 Hin|k0 fs0 key l c0 Hin Hcl]; subst.
      * destruct Hin as [Heq|[]]; discriminate.
      * destruct Hin as [Heq|[]]. inversion Heq; subst. apply in_map_iff in Hcl as [x [<- Hx]].
        constructor; [apply block_shape_not_block; reflexivity|].
        intros c Hc'. unfold ExpressionStatement in Hc'.
        inversion Hc' as [k1 fs1 key1 c1 Hin1|k1 fs1 key1 l1 c1 Hin1 Hcl1]; subst.
        -- destruct Hin1 as [Heq1|[]]. inversion Heq1; subst. exact (Hitems _ Hx).
        -- destruct Hin1 as [Heq1|[]]. discriminate.
  - destruct (apply_rules_some _ _ _ _ _ _ H) as (p & r & env & result & Hin & Hm & Hf & Hres).
    assert (Hr : everywhere block_shape result).
    { eapply fill_wf; [exact Hf| |].
      - pose proof rule_templates_wf as Hall. rewrite Forall_forall in Hall. exact (Hall _ Hin).
      - eapply match_node_env_ok; [exact Hm|exact Hn|intros k b Hl; discriminate]. }
    destruct Hres as [->|[Ht [nm ->]]]; [exact Hr|].
    apply set_id_name_wf; [exact Hr|rewrite Ht; reflexivity].
Qed.

Lemma enter_top (f : nat) (n m : node) (s s' : renames) :
  enter upper_set f n s = Some (Some m, s') -> rule_top m.
Proof.
  unfold enter. destruct (is_sequence_statement n); intros H.
  - inversion H; subst. right; right; right. simpl. split; discriminate.
  - destruct (apply_rules_some _ _ _ _ _ _ H) as (p & r & env & result & Hin & _ & Hf & Hres).
    destruct Hres as [->|[Ht [nm ->]]]; [exact (rule_results _ _ _ _ Hin Hf)|].
    right; right; right. rewrite node_type_set_id_name, Ht. split; discriminate.
Qed.

Lemma enter_none_inv (f : nat) (n : node) (s s' : renames) :
  enter upper_set f n s = Some (None, s') ->
  Forall (fun pr => matches (fst pr) n = None) rewritePatterns.
Proof.
  unfold enter. destruct (is_sequence_statement n); intros H; [discriminate|].
  exact (apply_rules_none_inv _ _ _ _ _ H).
Qed.

(* ---- the walk, for containers ---- *)

Lemma visit_clean (fuel : nat) : forall parent n s n' s',
  everywhere block_shape n ->
  visit upper_set fuel parent n s = Some (n', s') ->
  clean n' /\
  (node_type n' = "Program" -> match parent with Some p => is_block_like p = true | None => True end).
Proof.
  induction fuel as [|fuel IH]; intros parent n s n' s' Hn Hv; [discriminate|].
  destruct (visit_inv upper_set fuel parent n n' s s' Hv) as (m & fs' & s1 & s2 & He & Hf & ->).
  assert (Hm : everywhere block_shape m).
  { destruct He as [He|[_ ->]]; [eapply enter_wf; eauto|exact Hn]. }
  pose proof (visit_fields_rel _ _ _ _ _ Hf) as Hr.
  destruct m as [k fs]. simpl in Hr |- *.
  assert (Hch : forall c, child c (Node k fs') ->
                clean c /\ (node_type c = "Program" -> is_block_like k = true)).
  { intros c' Hc'. destruct (fields_rel_child _ _ _ _ _ Hr Hc') as [c [Hc [s3 [s4 Hvc]]]].
    exact (IH (Some k) c s3 c' s4 (everywhere_child _ _ _ Hm Hc) Hvc). }
  assert (Hm' : everywhere block_shape (Node k fs')).
  { constructor.
    - eapply fields_rel_block_shape; [exact Hr|exact (everywhere_here _ _ Hm)].
    - intros c Hc. apply (Hch c Hc). }
  destruct (leave_clean (match parent with Some p => p | None => k end) (Node k fs') Hm' Hch)
    as [Hc Ht].
  split; [exact Hc|]. intros Hp. destruct parent; [exact (Ht Hp)|exact I].
Qed.

(* ---- the walk, for [!1] and [!0] ---- *)

Lemma visit_literal (f : nat) (p : option string) (a : node) (s s' : renames) (z : Z) :
  visit upper_set f p a s = Some (NumLiteral z, s') -> a = NumLiteral z.
Proof.
  destruct f as [|f]; [discriminate|]. intros Hvis.
  destruct (visit_inv _ _ _ _ _ _ _ Hvis) as (m & fs' & s1 & s2 & He & Hf & Heq).
  assert (Hb : is_block_like (node_type (Node (node_type m) fs')) = false).
  { rewrite <- (leave_block_like (match p with Some q => q | None => node_type m end)), <- Heq.
    reflexivity. }
  rewrite leave_other in Heq by exact Hb.
  pose proof (visit_fields_rel _ _ _ _ _ Hf) as Hr.
  destruct m as [k fs]. unfold NumLiteral in Heq. simpl in Heq, Hr.
  injection Heq as Hk Hfs. subst k fs'.
  destruct (fields_rel_cons_inv _ _ _ _ Hr) as (key & v & fs0 & -> & Hkey & Hv & Hr0).
  apply fields_rel_nil_inv in Hr0. subst fs0. simpl in Hkey, Hv. subst key.
  destruct v; simpl in Hv; try contradiction; try discriminate. inversion Hv; subst.
  destruct He as [He|[He Ha]].
  - exfalso. destruct (enter_top _ _ _ _ _ He) as [H|[H|[H|[_ H]]]]; try discriminate H.
    apply H. reflexivity.
  - rewrite <- Ha. reflexivity.
Qed.

Lemma visit_not_literal_inv (fuel : nat) (parent : option string) (n : node) (s s' : renames)
    (z : Z) :
  visit upper_set (Datatypes.S fuel) parent n s = Some (UnaryExpression "!" (NumLiteral z), s') ->
  n = UnaryExpression "!" (NumLiteral z) /\ exists s1, enter upper_set fuel n s = Some (None, s1).
Proof.
  intros Hv. destruct (visit_inv _ _ _ _ _ _ _ Hv) as (m & fs' & s1 & s2 & He & Hf & Heq).
  assert (Hb : is_block_like (node_type (Node (node_type m) fs')) = false).
  { rewrite <- (leave_block_like (match parent with Some q => q | None => node_type m end)), <- Heq.
    reflexivity. }
  rewrite leave_other in Heq by exact Hb.
  pose proof (visit_fields_rel _ _ _ _ _ Hf) as Hr.
  destruct m as [k fs]. unfold UnaryExpression in Heq. simpl in Heq, Hr.
  injection Heq as Hk Hfs. subst k fs'.
  destruct (fields_rel_cons_inv _ _ _ _ Hr) as (k1 & v1 & fs1 & -> & Hk1 & Hv1 & Hr1).
  destruct (fields_rel_cons_inv _ _ _ _ Hr1) as (k2 & v2 & fs2 & -> & Hk2 & Hv2 & Hr2).
  destruct (fields_rel_cons_inv _ _ _ _ Hr2) as (k3 & v3 & fs3 & -> & Hk3 & Hv3 & Hr3).
  apply fields_rel_nil_inv in Hr3. subst fs3. simpl in Hk1, Hk2, Hk3, Hv1, Hv2, Hv3.
  subst k1 k2 k3.
  destruct v1; simpl in Hv1; try contradiction; try discriminate. inversion Hv1; subst.
  destruct v2; simpl in Hv2; try contradiction; try discriminate.
  destruct Hv2 as [s3 [s4 Hva]]. apply visit_literal in Hva. subst.
  destruct v3; simpl in Hv3; try contradiction; try discriminate. inversion Hv3; subst.
  destruct He as [He|[He Ha]].
  - exfalso. destruct (enter_top _ _ _ _ _ He) as [H|[H|[H|[H _]]]]; try discriminate H.
    apply H. reflexivity.
  - subst n. split; [reflexivity|exists s1; exact He].
Qed.

Lemma visit_no_not_literal (fuel : nat) : forall parent n s n' s',
  visit upper_set fuel parent n s = Some (n', s') -> everywhere not_literal n'.
Proof.
  induction fuel as [|fuel IH]; intros parent n s n' s' Hv; [discriminate|].
  assert (Hself : not_literal n').
  { split; intros ->; destruct (visit_not_literal_inv _ _ _ _ _ _ Hv) as [-> [s1 He]];
      apply enter_none_inv in He; unfold rewritePatterns in He;
      inversion He as [|? ? H1 He1]; subst.
    - vm_compute in H1. discriminate H1.
    - inversion He1 as [|? ? H2 _]; subst. vm_compute in H2. discriminate H2. }
  destruct (visit_inv _ _ _ _ _ _ _ Hv) as (m & fs' & s1 & s2 & He & Hf & Heq).
  pose proof (visit_fields_rel _ _ _ _ _ Hf) as Hr.
  constructor; [exact Hself|]. rewrite Heq.
  apply leave_children_everywhere. intros c' Hc'.
  destruct (fields_rel_child _ _ _ _ _ Hr Hc') as [c [_ [s3 [s4 Hvc]]]].
  exact (IH _ _ _ _ _ Hvc).
Qed.

End Walk2.

(** C5: on a tree whose block-like nodes keep their statements in [body]
    (as esprima builds them), after [rewriteCode] returns no [Program]
    container is left anywhere below the root.  The [leave] hook turns a
    container whose parent is not block-like into a block with the same
    (spliced) statements, and splices the containers of a block-like
    node's body into it in place, in order: a statement is kept where it
    is, a container is replaced by its own statements, which are spliced
    in turn. *)
Theorem rewrite_leaves_no_container (upper_set : scopes) (fuel : nat) (ast t : node)
    (s : renames) :
  everywhere block_shape ast ->
  rewriteCode upper_set fuel ast = Some (t, s) ->
  (forall c, child c t -> everywhere not_program c) /\
  (forall pt body, is_block_like pt = false ->
     leave pt (Program body) = BlockStatement (flatten_body body)) /\
  flatten_body [] = [] /\
  (forall x l, node_type x <> "Program" -> flatten_body (x :: l) = x :: flatten_body l) /\
  (forall x l, node_type x = "Program" -> flatten_body (x :: l) = flatten_body (body_of x ++ l)).
Proof.
  intros Hw Hr. split; [|split; [|split; [|split]]].
  - exact (proj2 (proj1 (visit_clean upper_set fuel None ast [] t s Hw Hr))).
  - intros pt body Hpt. unfold leave. cbv zeta. rewrite Hpt. reflexivity.
  - exact flatten_body_nil.
  - intros x l Hx. apply flatten_body_cons_stmt. apply String.eqb_neq. exact Hx.
  - intros x l Hx. apply flatten_body_cons_program. apply String.eqb_eq. exact Hx.
Qed.

(** [if (x) a, b; c, d;] *)
Definition containers_example : node :=
  Program [IfStatement (Identifier "x")
             (ExpressionStatement (SequenceExpression [Identifier "a"; Identifier "b"])) VNull;
           ExpressionStatement (SequenceExpression [Identifier "c"; Identifier "d"])].

(** [if (x) { a; b; } c; d;] *)
Definition containers_example_out : node :=
  Program [IfStatement (Identifier "x")
             (BlockStatement [ExpressionStatement (Identifier "a");
                              ExpressionStatement (Identifier "b")]) VNull;
           ExpressionStatement (Identifier "c"); ExpressionStatement (Identifier "d")].

(** C5, at [if (x) a, b; c, d;]: the container under the [if] becomes a
    block, the one in the program body is spliced. *)
Lemma rewrite_leaves_no_container_witness :
  everywhere block_shape containers_example /\
  rewriteCode (fun _ => []) 20 containers_example = Some (containers_example_out, []) /\
  (forall c, child c containers_example_out -> everywhere not_program c).
Proof.
  assert (Hw : everywhere block_shape containers_example).
  { apply (everywhere_mono (fun m => block_shapeb m = true)); [exact block_shapeb_sound|].
    apply all_nodes_everywhere. vm_compute. reflexivity. }
  assert (Hr : rewriteCode (fun _ => []) 20 containers_example = Some (containers_example_out, []))
    by (vm_compute; reflexivity).
  split; [exact Hw|]. split; [exact Hr|].
  exact (proj1 (rewrite_leaves_no_container (fun _ => []) 20 containers_example
                  containers_example_out [] Hw Hr)).
Defined.

(** C6: the walk replaces [!1] by [false] and [!0] by [true] wherever it
    meets them, and no [!1] or [!0] is left anywhere in the tree
    [rewriteCode] returns, also where a rewrite put one there. *)
Theorem rewrite_replaces_not_literals (upper_set : scopes) (fuel : nat) (ast t : node)
    (s : renames) :
  rewriteCode upper_set fuel ast = Some (t, s) ->
  everywhere not_literal t /\
  (forall f parent s0,
     visit upper_set (Datatypes.S f) parent (UnaryExpression "!" (NumLiteral 1)) s0 =
     Some (BoolLiteral false, s0)) /\
  (forall f parent s0,
     visit upper_set (Datatypes.S f) parent (UnaryExpression "!" (NumLiteral 0)) s0 =
     Some (BoolLiteral true, s0)).
Proof.
  intros H. split; [exact (visit_no_not_literal upper_set fuel None ast [] t s H)|].
  split; intros f parent s0; reflexivity.
Qed.

(** [!1 && !0;] *)
Definition not_literals_example : node :=
  Program [ExpressionStatement
             (LogicalExpression "&&" (UnaryExpression "!" (NumLiteral 1))
                                     (UnaryExpression "!" (NumLiteral 0)))].

(** [if (false) true;] *)
Definition not_literals_example_out : node :=
  Program [IfStatement (BoolLiteral false) (ExpressionStatement (BoolLiteral true)) VNull].

(** C6, at [!1 && !0;]: the statement becomes [if (!1) !0;], whose
    literals are then rewritten. *)
Lemma rewrite_replaces_not_literals_witness :
  rewriteCode (fun _ => []) 20 not_literals_example = Some (not_literals_example_out, []) /\
  everywhere not_literal not_literals_example_out.
Proof.
  assert (Hr : rewriteCode (fun _ => []) 20 not_literals_example =
               Some (not_literals_example_out, [])) by (vm_compute; reflexivity).
  split; [exact Hr|].
  exact (proj1 (rewrite_replaces_not_literals (fun _ => []) 20 not_literals_example
                  not_literals_example_out [] Hr)).
Defined.

End TraversalFacts.

(* ------------------------------------------------------------------ *)
(** ** More of [ensureParentDirExists] (src/lib/io.js) *)

Module IoMore.
Import Io IoFacts.
Local Open Scope list_scope.

(* ---- [path.dirname] on relative paths ---- *)

Lemma dirname_scan_bound (p : string) (i : nat) (b : bool) (e : nat) :
  dirname_scan p i b = Some e -> 1 <= e <= i.
Proof.
  revert b. induction i as [|j IH]; intros b H; simpl in H; [discriminate|].
  destruct (Ascii.eqb _ slash).
  - destruct (negb b).
    + injection H as <-. lia.
    + specialize (IH _ H). lia.
  - specialize (IH _ H). lia.
Qed.

Lemma substring_prefix_length (p : string) (e : nat) :
  e <= String.length p -> String.length (String.substring 0 e p) = e.
Proof.
  revert e. induction p as [|c p IH]; intros e He; destruct e as [|e]; simpl in *;
    try reflexivity; try lia.
  f_equal. apply IH. lia.
Qed.

Lemma substring_prefix_head (p : string) (e : nat) :
  String.get 0 (String.substring 0 (Datatypes.S e) p) = String.get 0 p.
Proof. destruct p; reflexivity. Qed.

(** The parent of a path that does not start with [/] is ["."], or a
    strictly shorter prefix of it, again not starting with [/]. *)
Lemma dirname_relative (p : string) :
  String.get 0 p <> Some slash ->
  dirname p = "." \/
  (String.length (dirname p) < String.length p /\ String.get 0 (dirname p) = String.get 0 p).
Proof.
  intros Hrel. unfold dirname. destruct (String.length p) as [|last] eqn:L; [left; reflexivity|].
  cbv zeta.
  assert (Hroot : match String.get 0 p with Some c => Ascii.eqb c slash | None => false end = false).
  { destruct (String.get 0 p) as [c|]; [|reflexivity].
    destruct (Ascii.eqb c slash) eqn:Hc; [|reflexivity].
    apply Ascii.eqb_eq in Hc. subst c. contradiction. }
  rewrite Hroot. destruct (dirname_scan p last true) as [e|] eqn:Hs; [|left; reflexivity].
  right. simpl andb. cbv iota. apply dirname_scan_bound in Hs.
  destruct e as [|e]; [lia|]. split.
  - rewrite substring_prefix_length by lia. lia.
  - apply substring_prefix_head.
Qed.

(* ---- what the calls to [mkdirSync] see ---- *)

(** The parent of [d] exists in [fs], or is the working directory. *)
Definition parent_ok (fs : fsys) (d : string) : Prop :=
  dirname d = "" \/ dirname d = "." \/ In (dirname d) fs.

(** The directories created, in the order of the [mkdirSync] calls, each
    one missing when it is created and its parent present. *)
Fixpoint mkdirs_ok (fs : fsys) (created : list string) : Prop :=
  match created with
  | [] => True
  | d :: rest => ~ In d fs /\ parent_ok fs d /\ mkdirs_ok (mkdirSync fs d) rest
  end.

Lemma mkdirs_ok_snoc (fs : fsys) (created : list string) (d : string) :
  mkdirs_ok fs created -> ~ In d (fs ++ created) -> parent_ok (fs ++ created) d ->
  mkdirs_ok fs (created ++ [d]).
Proof.
  revert fs. induction created as [|x created IH]; intros fs Hc Hd Hp; simpl in *.
  - rewrite app_nil_r in Hd, Hp. auto.
  - destruct Hc as (Hx & Hpx & Hc). split; [exact Hx|]. split; [exact Hpx|].
    unfold mkdirSync in *. apply IH; [exact Hc| |]; rewrite <- app_assoc; exact Hd || exact Hp.
Qed.

Lemma existsSync_In (fs : fsys) (d : string) : existsSync fs d = true <-> In d fs.
Proof.
  unfold existsSync. rewrite existsb_exists. split.
  - intros [x [Hx He]]. apply String.eqb_eq in He. subst. exact Hx.
  - intros Hd. exists d. split; [exact Hd|apply String.eqb_refl].
Qed.

(** When [ensureParentDirExists] returns, it has only appended
    directories to the file system, each [mkdirSync] call was on a
    directory that did not exist yet and whose parent existed, and the
    parent directory of [filepath] exists (or is ["."]). *)
Theorem ensureParentDirExists_creates_parents (fuel : nat) (fs fs' : fsys) (filepath : string) :
  ensureParentDirExists fuel fs filepath = Some fs' ->
  exists created, fs' = fs ++ created /\ mkdirs_ok fs created /\ parent_ok fs' filepath.
Proof.
  revert filepath fs'. induction fuel as [|f IH]; intros p fs' H; [discriminate|].
  rewrite ensureParentDirExists_step in H.
  destruct (String.eqb (dirname p) "" || String.eqb (dirname p) ".") eqn:G.
  - injection H as <-. exists []. rewrite app_nil_r. split; [reflexivity|]. split; [exact I|].
    apply orb_true_iff in G as [G|G]; apply String.eqb_eq in G; unfold parent_ok; auto.
  - destruct (ensureParentDirExists f fs (dirname p)) as [fs1|] eqn:H1; [|discriminate].
    destruct (IH _ _ H1) as (c1 & -> & Hc1 & Hp1).
    destruct (existsSync (fs ++ c1) (dirname p)) eqn:Hex; injection H as <-.
    + exists c1. split; [reflexivity|]. split; [exact Hc1|].
      right. right. apply existsSync_In. exact Hex.
    + exists (c1 ++ [dirname p]). unfold mkdirSync. rewrite app_assoc.
      split; [reflexivity|]. split.
      * apply mkdirs_ok_snoc; [exact Hc1| |exact Hp1].
        intros Hin. apply existsSync_In in Hin. congruence.
      * right. right. apply in_or_app. right. left. reflexivity.
Qed.

(** [ensureParentDirExists("out/sub/a.js")] on an empty tree makes [out],
    then [out/sub]. *)
Lemma ensureParentDirExists_creates_parents_witness :
  ensureParentDirExists 3 [] "out/sub/a.js" = Some ["out"; "out/sub"] /\
  exists created, ["out"; "out/sub"] = [] ++ created /\ mkdirs_ok [] created /\
                  parent_ok ["out"; "out/sub"] "out/sub/a.js".
Proof.
  split; [reflexivity|].
  apply (ensureParentDirExists_creates_parents 3 [] ["out"; "out/sub"] "out/sub/a.js").
  reflexivity.
Defined.

(** A path that does not start with [/] is handled in at most one call
    per character: [ensureParentDirExists] returns. *)
Theorem ensureParentDirExists_relative_returns (fuel : nat) (fs : fsys) (filepath : string) :
  String.get 0 filepath <> Some "/"%char -> String.length filepath < fuel ->
  exists fs', ensureParentDirExists fuel fs filepath = Some fs'.
Proof.
  revert filepath. induction fuel as [|f IH]; intros p Hrel Hlen; [lia|].
  rewrite ensureParentDirExists_step.
  destruct (String.eqb (dirname p) "" || String.eqb (dirname p) ".") eqn:G; [eauto|].
  destruct (dirname_relative p Hrel) as [E|[Hl Hg]].
  - rewrite E in G. discriminate G.
  - destruct (IH (dirname p)) as [fs1 H1]; [rewrite Hg; exact Hrel|lia|].
    rewrite H1. eexists. reflexivity.
Qed.

Lemma ensureParentDirExists_relative_returns_witness :
  exists fs', ensureParentDirExists 20 ["out"] "out/sub/deep/a.js" = Some fs'.
Proof.
  apply ensureParentDirExists_relative_returns; [discriminate|simpl; lia].
Defined.

(** Calling [ensureParentDirExists] again, on a file system that holds
    every directory the first call left, creates nothing: in particular a
    second call for the same path returns the file system unchanged. *)
Theorem ensureParentDirExists_again (fuel : nat) (fs fs' G : fsys) (filepath : string) :
  ensureParentDirExists fuel fs filepath = Some fs' -> incl fs' G ->
  ensureParentDirExists fuel G filepath = Some G.
Proof.
  revert filepath fs'. induction fuel as [|f IH]; intros p fs' H Hincl; [discriminate|].
  rewrite ensureParentDirExists_step in H |- *.
  destruct (String.eqb (dirname p) "" || String.eqb (dirname p) "."); [reflexivity|].
  destruct (ensureParentDirExists f fs (dirname p)) as [fs1|] eqn:H1; [|discriminate].
  injection H as H.
  assert (Hd : In (dirname p) fs' /\ incl fs1 fs').
  { destruct (existsSync fs1 (dirname p)) eqn:Hex; subst fs'.
    - split; [apply existsSync_In; exact Hex|apply incl_refl].
    - unfold mkdirSync. split; [apply in_or_app; right; left; reflexivity|apply incl_appl, incl_refl]. }
  destruct Hd as [Hd Hfs1].
  rewrite (IH _ _ H1 (incl_tran Hfs1 Hincl)).
  assert (Hex : existsSync G (dirname p) = true) by (apply existsSync_In; apply Hincl; exact Hd).
  rewrite Hex. reflexivity.
Qed.

Lemma ensureParentDirExists_again_witness :
  ensureParentDirExists 3 [] "out/sub/a.js" = Some ["out"; "out/sub"] /\
  ensureParentDirExists 3 ["out"; "out/sub"] "out/sub/a.js" = Some ["out"; "out/sub"].
Proof.
  split; [reflexivity|].
  apply (ensureParentDirExists_again 3 [] ["out"; "out/sub"] ["out"; "out/sub"] "out/sub/a.js");
    [reflexivity|apply incl_refl].
Defined.

End IoMore.

(* ------------------------------------------------------------------ *)
(** ** More of the rewrite driver (src/lib/rewriteCode.js) *)

Module RewriteMore.
Import NodeInd Patterns Fill Rewrite MatchFacts PatternFacts TraversalFacts.
Local Open Scope list_scope.

(* ---- the splicing loop of [leave] ---- *)

Lemma flatten_body_no_program_helper (l : list node) : Forall not_program (flatten_body l).
Proof.
  apply flatten_body_preserves with (fun _ => True).
  - intros y _ _. apply Forall_forall. intros; exact I.
  - intros y _ Hp. unfold not_program. apply String.eqb_neq. exact Hp.
  - apply Forall_forall. intros; exact I.
Qed.

Lemma flatten_body_id_helper (l : list node) : Forall not_program l -> flatten_body l = l.
Proof.
  induction 1 as [|x l Hx _ IH]; [reflexivity|].
  rewrite flatten_body_cons_stmt by (apply String.eqb_neq; exact Hx). rewrite IH. reflexivity.
Qed.

(** After the splicing loop no element of the array is a [Program]: each
    one met is replaced by its statements, which are examined in turn. *)
Theorem flatten_body_no_program (l : list node) (x : node) :
  In x (flatten_body l) -> node_type x <> "Program".
Proof.
  intros Hin. pose proof (flatten_body_no_program_helper l) as H.
  rewrite Forall_forall in H. exact (H x Hin).
Qed.

Lemma flatten_body_no_program_witness :
  In (Identifier "a")
     (flatten_body [Node "Program" [("body", VList [Identifier "a"])]; Identifier "b"]) /\
  node_type (Identifier "a") <> "Program".
Proof.
  assert (H : In (Identifier "a")
                 (flatten_body [Node "Program" [("body", VList [Identifier "a"])]; Identifier "b"])).
  { assert (E : flatten_body [Node "Program" [("body", VList [Identifier "a"])]; Identifier "b"]
                = [Identifier "a"; Identifier "b"]) by (vm_compute; reflexivity).
    rewrite E. left. reflexivity. }
  split; [exact H|]. exact (flatten_body_no_program _ _ H).
Defined.

(** Splicing works element by element: splicing a concatenation is
    concatenating the spliced parts. *)
Theorem flatten_body_app (a b : list node) :
  flatten_body (a ++ b) = flatten_body a ++ flatten_body b.
Proof.
  remember (list_size a) as n eqn:Hn. revert a Hn.
  induction n as [n IH] using lt_wf_ind. intros a Hn.
  destruct a as [|x a]; [reflexivity|].
  rewrite <- app_comm_cons.
  destruct (String.eqb (node_type x) "Program") eqn:Hx.
  - rewrite !flatten_body_cons_program by exact Hx.
    rewrite app_assoc. apply (IH (list_size (body_of x ++ a))); [|reflexivity].
    rewrite list_size_app, Hn, list_size_cons. pose proof (body_of_size x). lia.
  - rewrite !flatten_body_cons_stmt by exact Hx.
    rewrite (IH (list_size a)); [reflexivity| |reflexivity].
    rewrite Hn, list_size_cons. pose proof (node_size_pos x). lia.
Qed.

(** An array with no [Program] element is left as it is, so splicing an
    array twice gives what splicing it once gives. *)
Theorem flatten_body_stable (l : list node) :
  (Forall not_program l -> flatten_body l = l) /\
  flatten_body (flatten_body l) = flatten_body l.
Proof.
  split; [apply flatten_body_id_helper|].
  apply flatten_body_id_helper. apply flatten_body_no_program_helper.
Qed.

Lemma flatten_body_stable_witness :
  Forall not_program [Identifier "a"; Identifier "b"] /\
  flatten_body [Identifier "a"; Identifier "b"] = [Identifier "a"; Identifier "b"].
Proof.
  assert (H : Forall not_program [Identifier "a"; Identifier "b"]).
  { repeat constructor; discriminate. }
  split; [exact H|]. exact (proj1 (flatten_body_stable [Identifier "a"; Identifier "b"]) H).
Defined.

(* ---- the [leave] hook ---- *)

Lemma get_field_set_field_other (key key' : string) (v : value) (n : node) :
  key' <> key -> get_field key' (set_field key v n) = get_field key' n.
Proof.
  intros Hk. destruct n as [k fs]. unfold get_field. simpl.
  induction fs as [|[k0 v0] fs IH]; [reflexivity|]. simpl.
  destruct (String.eqb k0 key) eqn:E.
  - apply String.eqb_eq in E. subst k0. simpl.
    assert (E' : String.eqb key key' = false) by (apply String.eqb_neq; congruence).
    rewrite E'. exact IH.
  - simpl. destruct (String.eqb k0 key'); [reflexivity|exact IH].
Qed.

Lemma get_field_set_field_same (key : string) (v v0 : value) (n : node) :
  get_field key n = Some v0 -> get_field key (set_field key v n) = Some v.
Proof.
  destruct n as [k fs]. unfold get_field. simpl.
  induction fs as [|[k0 w] fs IH]; simpl; [discriminate|].
  destruct (String.eqb k0 key) eqn:E; simpl.
  - rewrite String.eqb_refl. reflexivity.
  - rewrite E. exact IH.
Qed.

Lemma set_field_twice (key : string) (v : value) (n : node) :
  set_field key v (set_field key v n) = set_field key v n.
Proof.
  destruct n as [k fs]. simpl. f_equal. rewrite map_map. apply map_ext.
  intros [k0 v0]. simpl. destruct (String.eqb k0 key) eqn:E; simpl.
  - rewrite String.eqb_refl. reflexivity.
  - rewrite E. reflexivity.
Qed.

(** The first statement of [leave]. *)
Definition leave_coerce (ptype : string) (n : node) : node :=
  if String.eqb (node_type n) "Program" && negb (is_block_like ptype)
  then set_type "BlockStatement" n else n.

Lemma leave_unfold (ptype : string) (n : node) :
  leave ptype n =
  if is_block_like (node_type (leave_coerce ptype n))
  then match get_field "body" (leave_coerce ptype n) with
       | Some (VList l) => set_field "body" (VList (flatten_body l)) (leave_coerce ptype n)
       | _ => leave_coerce ptype n
       end
  else leave_coerce ptype n.
Proof. reflexivity. Qed.

Lemma leave_coerce_type (ptype : string) (n : node) :
  node_type (leave_coerce ptype n) =
  if String.eqb (node_type n) "Program" && negb (is_block_like ptype)
  then "BlockStatement" else node_type n.
Proof.
  unfold leave_coerce. destruct (_ && _); [destruct n|]; reflexivity.
Qed.

Lemma leave_coerce_get (ptype key : string) (n : node) :
  get_field key (leave_coerce ptype n) = get_field key n.
Proof. unfold leave_coerce. destruct (_ && _); [destruct n|]; reflexivity. Qed.

Lemma leave_coerce_block (ptype : string) (n : node) :
  is_block_like (node_type (leave_coerce ptype n)) = is_block_like (node_type n).
Proof.
  rewrite leave_coerce_type.
  destruct (String.eqb (node_type n) "Program" && negb (is_block_like ptype)) eqn:C; [|reflexivity].
  apply andb_prop in C as [C _]. apply String.eqb_eq in C. rewrite C. reflexivity.
Qed.

Lemma leave_type (ptype : string) (n : node) :
  node_type (leave ptype n) =
  if String.eqb (node_type n) "Program" && negb (is_block_like ptype)
  then "BlockStatement" else node_type n.
Proof.
  rewrite leave_unfold, <- leave_coerce_type.
  destruct (is_block_like _); [|reflexivity].
  destruct (get_field "body" _) as [[| | | | |l]|]; try reflexivity.
  apply node_type_set_field.
Qed.

Lemma leave_get_other (ptype key : string) (n : node) :
  key <> "body" -> get_field key (leave ptype n) = get_field key n.
Proof.
  intros Hk. rewrite leave_unfold, <- (leave_coerce_get ptype key n).
  destruct (is_block_like _); [|reflexivity].
  destruct (get_field "body" _) as [[| | | | |l]|]; try reflexivity.
  apply get_field_set_field_other. exact Hk.
Qed.

Lemma leave_get_body (ptype : string) (n : node) :
  get_field "body" (leave ptype n) =
  if is_block_like (node_type n)
  then match get_field "body" n with
       | Some (VList l) => Some (VList (flatten_body l))
       | o => o
       end
  else get_field "body" n.
Proof.
  rewrite leave_unfold, leave_coerce_block, !leave_coerce_get.
  destruct (is_block_like (node_type n)); [|apply leave_coerce_get].
  destruct (get_field "body" n) as [[| | | | |l]|] eqn:Hg; rewrite ?leave_coerce_get, ?Hg;
    try reflexivity.
  apply (get_field_set_field_same _ _ (VList l)). rewrite leave_coerce_get. exact Hg.
Qed.

(** What [leave] changes: a [Program] whose parent is neither a block
    nor a [Program] becomes a [BlockStatement] (no other type changes);
    of a block or [Program], the array [body] is spliced; every other
    field reads as before. *)
Theorem leave_changes (ptype : string) (n : node) :
  node_type (leave ptype n) =
    (if String.eqb (node_type n) "Program" && negb (is_block_like ptype)
     then "BlockStatement" else node_type n) /\
  get_field "body" (leave ptype n) =
    (if is_block_like (node_type n)
     then match get_field "body" n with
          | Some (VList l) => Some (VList (flatten_body l))
          | o => o
          end
     else get_field "body" n) /\
  (forall key, key <> "body" -> get_field key (leave ptype n) = get_field key n).
Proof.
  split; [apply leave_type|]. split; [apply leave_get_body|].
  intros key Hk. apply leave_get_other. exact Hk.
Qed.

(** Running the [leave] hook a second time on the node it left changes
    nothing. *)
Theorem leave_idempotent (ptype : string) (n : node) :
  leave ptype (leave ptype n) = leave ptype n.
Proof.
  assert (Hc : leave_coerce ptype (leave ptype n) = leave ptype n).
  { unfold leave_coerce. rewrite (leave_type ptype n).
    destruct (String.eqb (node_type n) "Program" && negb (is_block_like ptype)) eqn:C;
      [reflexivity|rewrite C; reflexivity]. }
  rewrite (leave_unfold ptype (leave ptype n)), Hc.
  destruct (is_block_like (node_type (leave ptype n))) eqn:Hb; [|reflexivity].
  rewrite leave_get_body.
  assert (Hbn : is_block_like (node_type n) = true).
  { rewrite <- Hb, leave_type, <- leave_coerce_type. symmetry. apply leave_coerce_block. }
  rewrite Hbn.
  destruct (get_field "body" n) as [[| | | | |l]|] eqn:Hg; try reflexivity.
  rewrite (flatten_body_id_helper _ (flatten_body_no_program_helper l)).
  rewrite (leave_unfold ptype n), leave_coerce_block, Hbn, leave_coerce_get, Hg.
  apply set_field_twice.
Qed.

(* ---- the renaming of a replaced function declaration ---- *)

Lemma fresh_name_result (fuel : nat) (set : list string) (base : string) (i : nat)
    (nm0 nm : string) :
  fresh_name fuel set base i nm0 = Some nm ->
  ~ In nm set /\ (nm = nm0 \/ nm = (base ++ string_of_nat i)%string).
Proof.
  revert nm0. induction fuel as [|f IH]; intros nm0 H; [discriminate|].
  simpl in H. destruct (existsb (String.eqb nm0) set) eqn:E.
  - destruct (IH _ H) as [Hn [Heq|Heq]]; split; auto.
  - injection H as <-. split; [|left; reflexivity].
    intros Hin. assert (E' : existsb (String.eqb nm0) set = true).
    { apply existsb_exists. exists nm0. split; [exact Hin|apply String.eqb_refl]. }
    congruence.
Qed.

Lemma apply_rules_replace (upper_set : scopes) (f : nat) (rules : list (node * node)) (n r : node)
    (s s' : renames) :
  apply_rules upper_set f rules n s = Some (Some r, s') ->
  exists p t env result, In (p, t) rules /\ matches p n = Some env /\
    fill t env = Some result /\ replace_with upper_set f n result s = Some (Some r, s').
Proof.
  induction rules as [|[p t] rules IH]; simpl; intros H; [discriminate|].
  destruct (matches p n) as [env|] eqn:Hm.
  - destruct (fill t env) as [result|] eqn:Hf; [|discriminate].
    exists p, t, env, result. auto.
  - destruct (IH H) as (p' & t' & env & result & Hin & Hrest).
    exists p', t', env, result. split; [right; exact Hin|exact Hrest].
Qed.

(** The helper the module-interop rule puts in place. *)
Definition interop_helper : node :=
  FunctionDeclaration (Identifier "_interopRequireDefault") [Identifier "obj"]
                      (interop_body (Identifier "obj")).

(** What [enter] does to the renaming log: when it replaces a function
    declaration by a function declaration, the new function is named
    [_interopRequireDefault], or [_interopRequireDefault1] when that name
    is bound in the enclosing scope, never a name bound there, and the one
    call [renameVariable(old name, new name)] is logged; any other
    replacement logs nothing. *)
Theorem enter_renames_helper (upper_set : scopes) (fuel : nat) (n r : node) (s s' : renames) :
  enter upper_set fuel n s = Some (Some r, s') ->
  (node_type n = "FunctionDeclaration" -> node_type r = "FunctionDeclaration" ->
   exists old nm, id_name n = Some old /\ id_name r = Some nm /\ ~ In nm (upper_set n) /\
     (nm = "_interopRequireDefault" \/ nm = "_interopRequireDefault1") /\
     s' = (old, nm) :: s) /\
  (node_type n <> "FunctionDeclaration" \/ node_type r <> "FunctionDeclaration" -> s' = s).
Proof.
  unfold enter. destruct (is_sequence_statement n) eqn:Hseq; intros H.
  - injection H as <- <-. split; [intros _ Hr; discriminate Hr|reflexivity].
  - destruct (apply_rules_replace _ _ _ _ _ _ _ H) as (p & t & env & result & Hin & _ & Hf & Hrw).
    unfold replace_with in Hrw.
    destruct (String.eqb (node_type n) "FunctionDeclaration" &&
              String.eqb (node_type result) "FunctionDeclaration") eqn:C.
    + apply andb_prop in C as [Cn Cr]. apply String.eqb_eq in Cn, Cr.
      assert (Hres : result = interop_helper).
      { unfold rewritePatterns in Hin.
        repeat (destruct Hin as [Heq|Hin]; [injection Heq as <- <-|]); try destruct Hin;
          first [ apply fill_type in Hf; [|reflexivity]; rewrite Cr in Hf; discriminate Hf
                | cbv in Hf; injection Hf as <-; reflexivity ]. }
      subst result.
      destruct (id_name n) as [old|] eqn:Hold; [|discriminate].
      assert (Hb : id_name interop_helper = Some "_interopRequireDefault") by reflexivity.
      rewrite Hb in Hrw.
      destruct (fresh_name fuel (upper_set n) "_interopRequireDefault" 1 "_interopRequireDefault")
        as [nm|] eqn:Hfr; [|discriminate].
      injection Hrw as <- <-. split.
      * intros _ _. exists old, nm.
        destruct (fresh_name_result _ _ _ _ _ _ Hfr) as [Hnin Hnm].
        split; [reflexivity|]. split; [reflexivity|]. split; [exact Hnin|].
        split; [|reflexivity].
        destruct Hnm as [->| ->]; [left|right]; reflexivity.
      * intros [Hn|Hr]; [contradiction|]. exfalso. apply Hr. reflexivity.
    + injection Hrw as <- <-. split; [|reflexivity].
      intros Hn Hr. rewrite Hn, Hr in C. discriminate C.
Qed.

(** [function n(e) { return e && e.__esModule ? e : { default: e }; }] *)
Definition helper_example : node :=
  FunctionDeclaration (Identifier "n") [Identifier "e"] (interop_body (Identifier "e")).

Definition helper_example_out : node :=
  FunctionDeclaration (Identifier "_interopRequireDefault1") [Identifier "obj"]
                      (interop_body (Identifier "obj")).

(** With [_interopRequireDefault] bound in the scope the helper is named
    [_interopRequireDefault1]. *)
Lemma enter_renames_helper_witness :
  enter (fun _ => ["n"; "_interopRequireDefault"]) 3 helper_example [] =
    Some (Some helper_example_out, [("n", "_interopRequireDefault1")]) /\
  exists old nm, id_name helper_example = Some old /\ id_name helper_example_out = Some nm /\
    ~ In nm ["n"; "_interopRequireDefault"] /\
    (nm = "_interopRequireDefault" \/ nm = "_interopRequireDefault1") /\
    [("n", "_interopRequireDefault1")] = (old, nm) :: [].
Proof.
  assert (H : enter (fun _ => ["n"; "_interopRequireDefault"]) 3 helper_example [] =
              Some (Some helper_example_out, [("n", "_interopRequireDefault1")]))
    by (vm_compute; reflexivity).
  split; [exact H|].
  exact (proj1 (enter_renames_helper (fun _ => ["n"; "_interopRequireDefault"]) 3 helper_example
                  helper_example_out [] _ H) eq_refl eq_refl).
Defined.

(* ---- the renaming log of the walk ---- *)

Definition not_function (m : node) : Prop := node_type m <> "FunctionDeclaration".

Lemma apply_rules_log (upper_set : scopes) (f : nat) (rules : list (node * node)) (n : node)
    (r : option node) (s s' : renames) :
  apply_rules upper_set f rules n s = Some (r, s') -> not_function n -> s' = s.
Proof.
  induction rules as [|[p t] rules IH]; simpl; intros H Hn.
  - injection H as _ <-. reflexivity.
  - destruct (matches p n) as [env|]; [|exact (IH H Hn)].
    destruct (fill t env) as [result|]; [|discriminate].
    unfold replace_with in H.
    assert (C : String.eqb (node_type n) "FunctionDeclaration" = false)
      by (apply String.eqb_neq; exact Hn).
    rewrite C in H. simpl in H. injection H as _ <-. reflexivity.
Qed.

Lemma enter_log (upper_set : scopes) (f : nat) (n : node) (r : option node) (s s' : renames) :
  enter upper_set f n s = Some (r, s') -> not_function n -> s' = s.
Proof.
  unfold enter. destruct (is_sequence_statement n); intros H Hn.
  - injection H as _ <-. reflexivity.
  - exact (apply_rules_log _ _ _ _ _ _ _ H Hn).
Qed.

Lemma fill_keeps_types (T : string -> Prop) (t : node) : forall e t',
  fill t e = Some t' ->
  everywhere (fun m => is_placeholder_kind (node_type m) = false -> T (node_type m)) t ->
  T "Identifier" -> env_ok (fun m => T (node_type m)) e ->
  everywhere (fun m => T (node_type m)) t'.
Proof.
  induction t as [k fs IH] using node_ind'. intros e t' H Ht HI He.
  destruct (is_placeholder_kind k) eqn:Hph.
  - cbn -[str_field lookup] in H.
    destruct (String.eqb k "GenericPlaceholder") eqn:Hg.
    { destruct (lookup _ e) as [[s0|m0]|]; inversion H; subst.
      constructor; [exact HI|].
      intros c Hc. unfold Identifier in Hc.
      inversion Hc as [k0 fs0 key c0 Hin|k0 fs0 key l c0 Hin Hcl]; subst;
        destruct Hin as [Heq|[]]; discriminate. }
    destruct (String.eqb k "StatementPlaceholder" || String.eqb k "ExpressionPlaceholder") eqn:Hse.
    { destruct (lookup _ e) as [[s0|m0]|] eqn:Hl; inversion H; subst. exact (He _ _ Hl). }
    unfold is_placeholder_kind in Hph. rewrite Hg in Hph. simpl in Hph.
    rewrite Hse in Hph. discriminate.
  - rewrite fill_Node in H by exact Hph.
    destruct (fill_fields e fs) as [fs'|] eqn:Hf; inversion H; subst.
    pose proof (fill_fields_rel _ _ _ Hf) as Hr.
    constructor; [exact (everywhere_here _ _ Ht Hph)|].
    intros c' Hc'. destruct (fields_rel_child _ _ _ _ _ Hr Hc') as [c [Hc Hfc]].
    exact (child_value _ k fs c IH Hc e c' Hfc (everywhere_child _ _ _ Ht Hc) HI He).
Qed.

Lemma match_node_type (p n : node) (e e' : env) :
  is_placeholder_kind (node_type p) = false -> match_node p n e = Some e' ->
  node_type n = node_type p.
Proof.
  destruct p as [pk pfs]. cbn [node_type]. intros Hph H.
  rewrite match_node_Node in H by exact Hph.
  destruct n as [nk nfs]. destruct (String.eqb pk nk) eqn:E; [|discriminate].
  apply String.eqb_eq in E. simpl. congruence.
Qed.

(** The templates of the rules, apart from the module-interop one, hold
    no function declaration. *)
Lemma rule_templates_no_function :
  Forall (fun pr => node_type (fst pr) = "FunctionDeclaration" \/
                    everywhere (fun m => is_placeholder_kind (node_type m) = false ->
                                         not_function m) (snd pr)) rewritePatterns.
Proof.
  assert (H : forallb (fun pr => String.eqb (node_type (fst pr)) "FunctionDeclaration" ||
                                 all_nodes (fun m => is_placeholder_kind (node_type m) ||
                                   negb (String.eqb (node_type m) "FunctionDeclaration")) (snd pr))
                      rewritePatterns = true) by (vm_compute; reflexivity).
  rewrite forallb_forall in H. apply Forall_forall. intros pr Hin.
  specialize (H pr Hin). apply orb_true_iff in H as [H|H]; [left; apply String.eqb_eq; exact H|].
  right. apply all_nodes_everywhere in H. revert H. apply everywhere_mono.
  intros m Hm Hph. rewrite Hph in Hm. simpl in Hm. unfold not_function.
  apply String.eqb_neq. destruct (String.eqb _ _); [discriminate|reflexivity].
Qed.

Lemma enter_no_function (upper_set : scopes) (f : nat) (n m : node) (s s' : renames) :
  everywhere not_function n -> enter upper_set f n s = Some (Some m, s') ->
  everywhere not_function m.
Proof.
  intros Hn H. unfold enter in H. destruct (is_sequence_statement n) eqn:Hseq.
  - injection H as <- _.
    assert (Hitems : forall x, In x (sequence_items n) -> everywhere not_function x).
    { intros x Hx. unfold sequence_items in Hx.
      destruct (get_field "expression" n) as [[| | | |y|]|] eqn:Hy; try destruct Hx.
      destruct (get_field "expressions" y) as [[| | | | |l]|] eqn:Hl; try destruct Hx.
      apply get_field_In in Hy, Hl.
      apply (everywhere_child _ y).
      - apply (everywhere_child _ n); [exact Hn|]. eapply child_node_field; exact Hy.
      - eapply child_list_field; [exact Hl|exact Hx]. }
    constructor; [discriminate|].
    intros c Hc. unfold Program in Hc.
    inversion Hc as [k0 fs0 key c0 Hin|k0 fs0 key l c0 Hin Hcl]; subst.
    + destruct Hin as [Heq|[]]; discriminate.
    + destruct Hin as [Heq|[]]. inversion Heq; subst. apply in_map_iff in Hcl as [x [<- Hx]].
      constructor; [discriminate|].
      intros c Hc'. unfold ExpressionStatement in Hc'.
      inversion Hc' as [k1 fs1 key1 c1 Hin1|k1 fs1 key1 l1 c1 Hin1 Hcl1]; subst.
      * destruct Hin1 as [Heq1|[]]. inversion Heq1; subst. exact (Hitems _ Hx).
      * destruct Hin1 as [Heq1|[]]. discriminate.
  - destruct (apply_rules_replace _ _ _ _ _ _ _ H) as (p & t & env & result & Hin & Hm & Hf & Hrw).
    pose proof rule_templates_no_function as Hall. rewrite Forall_forall in Hall.
    destruct (Hall _ Hin) as [Hp|Ht]; simpl fst in *; simpl snd in *.
    + exfalso. apply (everywhere_here _ _ Hn).
      rewrite (match_node_type p n [] env); [exact Hp| |exact Hm]. rewrite Hp. reflexivity.
    + assert (Hr : everywhere not_function result).
      { apply (fill_keeps_types (fun k => k <> "FunctionDeclaration") t env result Hf Ht);
          [discriminate|].
        eapply match_node_env_ok; [exact Hm|exact Hn|intros k b Hl; discriminate]. }
      unfold replace_with in Hrw.
      assert (C : String.eqb (node_type n) "FunctionDeclaration" = false)
        by (apply String.eqb_neq; exact (everywhere_here _ _ Hn)).
      rewrite C in Hrw. simpl in Hrw. injection Hrw as <- _. exact Hr.
Qed.

Lemma visit_list_same (V : node -> renames -> option (node * renames)) (l l' : list node)
    (s s' : renames) :
  (forall c, In c l -> forall s0 c' s1, V c s0 = Some (c', s1) -> s1 = s0) ->
  visit_list V l s = Some (l', s') -> s' = s.
Proof.
  revert l' s. induction l as [|c l IH]; intros l' s HV H; simpl in H.
  - injection H as _ <-. reflexivity.
  - destruct (V c s) as [[c' s1]|] eqn:Hc; [|discriminate].
    destruct (visit_list V l s1) as [[l'' s2]|] eqn:Hl; [|discriminate].
    injection H as _ <-. rewrite (IH _ _ (fun c0 Hc0 => HV c0 (or_intror Hc0)) Hl).
    exact (HV c (or_introl eq_refl) _ _ _ Hc).
Qed.

Lemma visit_fields_same (V : node -> renames -> option (node * renames)) (k : string)
    (fs fs' : list (string * value)) (s s' : renames) :
  (forall c, child c (Node k fs) -> forall s0 c' s1, V c s0 = Some (c', s1) -> s1 = s0) ->
  visit_fields V fs s = Some (fs', s') -> s' = s.
Proof.
  revert fs' s. induction fs as [|[key v] fs IH]; intros fs' s HV H; simpl in H.
  - injection H as _ <-. reflexivity.
  - assert (HV' : forall c, child c (Node k fs) ->
                  forall s0 c' s1, V c s0 = Some (c', s1) -> s1 = s0).
    { intros c Hc. apply HV.
      inversion Hc as [k0 fs0 key0 c0 Hin|k0 fs0 key0 l c0 Hin Hcl]; subst.
      - eapply child_field. right. exact Hin.
      - eapply child_elem; [right; exact Hin|exact Hcl]. }
    destruct (match v with
              | VNode c => match V c s with Some (c', s1) => Some (VNode c', s1) | None => None end
              | VList l => match visit_list V l s with
                           | Some (l', s1) => Some (VList l', s1) | None => None end
              | v => Some (v, s)
              end) as [[v' s1]|] eqn:Hv; [|discriminate].
    destruct (visit_fields V fs s1) as [[fs'' s2]|] eqn:Hf; [|discriminate].
    injection H as _ <-. rewrite (IH _ _ HV' Hf).
    destruct v; try (injection Hv as _ <-; reflexivity).
    + destruct (V n s) as [[c' s3]|] eqn:Hc; [|discriminate]. injection Hv as _ <-.
      exact (HV n (child_field k ((key, VNode n) :: fs) key n (or_introl eq_refl)) _ _ _ Hc).
    + destruct (visit_list V l s) as [[l' s3]|] eqn:Hl; [|discriminate]. injection Hv as _ <-.
      eapply visit_list_same; [|exact Hl].
      intros c Hc. apply HV. eapply child_elem; [left; reflexivity|exact Hc].
Qed.

(** One step of the walk, with the log it returns. *)
Lemma visit_step (upper_set : scopes) (fuel : nat) (parent : option string) (n n' : node)
    (s s' : renames) :
  visit upper_set (Datatypes.S fuel) parent n s = Some (n', s') ->
  exists r m fs' s1,
    enter upper_set fuel n s = Some (r, s1) /\ m = match r with Some m => m | None => n end /\
    visit_fields (visit upper_set fuel (Some (node_type m))) (node_fields m) s1 = Some (fs', s') /\
    n' = leave (match parent with Some p => p | None => node_type m end) (Node (node_type m) fs').
Proof.
  simpl. destruct (enter upper_set fuel n s) as [[r s1]|] eqn:He; [|discriminate].
  destruct (visit_fields _ _ s1) as [[fs' s2]|] eqn:Hf; [|discriminate].
  intros H. injection H as <- <-.
  exists r, (match r with Some m => m | None => n end), fs', s1. auto.
Qed.

Lemma visit_no_function_log (upper_set : scopes) (fuel : nat) : forall parent n s n' s',
  everywhere not_function n -> visit upper_set fuel parent n s = Some (n', s') -> s' = s.
Proof.
  induction fuel as [|f IH]; intros parent n s n' s' Hn Hv; [discriminate|].
  destruct (visit_step _ _ _ _ _ _ _ Hv) as (r & m & fs' & s1 & He & Hm & Hf & _).
  rewrite <- (enter_log _ _ _ _ _ _ He (everywhere_here _ _ Hn)).
  assert (Hmw : everywhere not_function m).
  { subst m. destruct r as [m|]; [exact (enter_no_function _ _ _ _ _ _ Hn He)|exact Hn]. }
  destruct m as [k fs]. simpl in Hf.
  eapply visit_fields_same; [|exact Hf].
  intros c Hc s0 c' s2 Hvc. exact (IH _ _ _ _ _ (everywhere_child _ _ _ Hmw Hc) Hvc).
Qed.

(** [rewriteCode] calls [renameVariable] only when it replaces a function
    declaration: on a tree with no function declaration anywhere it makes
    no renaming call. *)
Theorem rewrite_no_function_no_renames (upper_set : scopes) (fuel : nat) (ast t : node)
    (s : renames) :
  everywhere not_function ast -> rewriteCode upper_set fuel ast = Some (t, s) -> s = [].
Proof.
  intros Hn H. exact (visit_no_function_log upper_set fuel None ast [] t s Hn H).
Qed.

(** [a && b; c, d;] *)
Definition statements_example : node :=
  Program [ExpressionStatement (LogicalExpression "&&" (Identifier "a") (Identifier "b"));
           ExpressionStatement (SequenceExpression [Identifier "c"; Identifier "d"])].

(** [if (a) b; c; d;] *)
Definition statements_example_out : node :=
  Program [IfStatement (Identifier "a") (ExpressionStatement (Identifier "b")) VNull;
           ExpressionStatement (Identifier "c"); ExpressionStatement (Identifier "d")].

Lemma rewrite_no_function_no_renames_witness :
  everywhere not_function statements_example /\
  exists s, rewriteCode (fun _ => ["a"]) 20 statements_example = Some (statements_example_out, s) /\
            s = [].
Proof.
  assert (Hw : everywhere not_function statements_example).
  { apply (everywhere_mono (fun m => negb (String.eqb (node_type m) "FunctionDeclaration") = true)).
    - intros m Hm. unfold not_function. apply String.eqb_neq.
      destruct (String.eqb _ _); [discriminate|reflexivity].
    - apply all_nodes_everywhere. vm_compute. reflexivity. }
  assert (Hr : rewriteCode (fun _ => ["a"]) 20 statements_example = Some (statements_example_out, []))
    by (vm_compute; reflexivity).
  split; [exact Hw|]. exists []. split; [exact Hr|].
  exact (rewrite_no_function_no_renames (fun _ => ["a"]) 20 statements_example
           statements_example_out [] Hw Hr).
Defined.

(* ---- the root ---- *)

(** No rule and no sequence split applies to a [Program], so the root of
    a script stays a [Program]: [rewriteCode] returns a [Program] for a
    [Program]. *)
Theorem rewrite_keeps_program_root (upper_set : scopes) (fuel : nat) (ast t : node)
    (s : renames) :
  node_type ast = "Program" -> rewriteCode upper_set fuel ast = Some (t, s) ->
  node_type t = "Program".
Proof.
  intros Hty H. destruct fuel as [|f]; [discriminate|].
  destruct (visit_step _ _ _ _ _ _ _ H) as (r & m & fs' & s1 & He & Hm & _ & ->).
  assert (Hr : r = None).
  { destruct r as [m0|]; [exfalso|reflexivity].
    unfold enter in He.
    assert (Hseq : is_sequence_statement ast = false)
      by (unfold is_sequence_statement; rewrite Hty; reflexivity).
    rewrite Hseq in He.
    destruct (apply_rules_replace _ _ _ _ _ _ _ He) as (p & tp & env & result & Hin & Hmt & _).
    unfold rewritePatterns in Hin.
    repeat (destruct Hin as [Heq|Hin]; [injection Heq as <- _|]); try destruct Hin;
      apply match_node_type in Hmt; try reflexivity; rewrite Hty in Hmt; discriminate Hmt. }
  subst r m. rewrite leave_type, Hty. reflexivity.
Qed.

Lemma rewrite_keeps_program_root_witness :
  node_type statements_example = "Program" /\
  rewriteCode (fun _ => []) 20 statements_example = Some (statements_example_out, []) /\
  node_type statements_example_out = "Program".
Proof.
  assert (Hr : rewriteCode (fun _ => []) 20 statements_example = Some (statements_example_out, []))
    by (vm_compute; reflexivity).
  split; [reflexivity|]. split; [exact Hr|].
  exact (rewrite_keeps_program_root (fun _ => []) 20 statements_example statements_example_out []
           eq_refl Hr).
Defined.

(* ---- code with nothing to rewrite ---- *)

(** A node the walk has nothing to do at: no rule matches it, it is not a
    comma statement, none of its children is a [Program], and its field
    names are distinct (as in a JavaScript object). *)
Definition untouched (m : node) : Prop :=
  Forall (fun pr => matches (fst pr) m = None) rewritePatterns /\
  is_sequence_statement m = false /\
  (forall c, child c m -> node_type c <> "Program") /\
  NoDup (map fst (node_fields m)).

Lemma apply_rules_no_match (upper_set : scopes) (f : nat) (rules : list (node * node)) (n : node)
    (s : renames) :
  Forall (fun pr => matches (fst pr) n = None) rules -> apply_rules upper_set f rules n s = Some (None, s).
Proof.
  induction 1 as [|[p t] rules Hm _ IH]; [reflexivity|]. simpl in Hm |- *. rewrite Hm. exact IH.
Qed.

Lemma visit_list_id (V : node -> renames -> option (node * renames)) (l : list node) (s : renames) :
  (forall c, In c l -> forall s0, V c s0 = Some (c, s0)) -> visit_list V l s = Some (l, s).
Proof.
  revert s. induction l as [|c l IH]; intros s HV; [reflexivity|]. simpl.
  rewrite (HV c (or_introl eq_refl)), IH; [reflexivity|].
  intros c0 Hc0. apply HV. right. exact Hc0.
Qed.

Lemma visit_fields_id (V : node -> renames -> option (node * renames)) (k : string)
    (fs : list (string * value)) (s : renames) :
  (forall c, child c (Node k fs) -> forall s0, V c s0 = Some (c, s0)) ->
  visit_fields V fs s = Some (fs, s).
Proof.
  revert s. induction fs as [|[key v] fs IH]; intros s HV; [reflexivity|].
  assert (HV' : forall c, child c (Node k fs) -> forall s0, V c s0 = Some (c, s0)).
  { intros c Hc. apply HV.
    inversion Hc as [k0 fs0 key0 c0 Hin|k0 fs0 key0 l c0 Hin Hcl]; subst.
    - eapply child_field. right. exact Hin.
    - eapply child_elem; [right; exact Hin|exact Hcl]. }
  simpl. destruct v; try (rewrite (IH s HV'); reflexivity).
  - rewrite (HV n (child_field k ((key, VNode n) :: fs) key n (or_introl eq_refl))).
    rewrite (IH s HV'). reflexivity.
  - rewrite visit_list_id; [rewrite (IH s HV'); reflexivity|].
    intros c Hc. apply HV. eapply child_elem; [left; reflexivity|exact Hc].
Qed.

Lemma NoDup_keys_In (fs : list (string * value)) (key : string) (a b : value) :
  NoDup (map fst fs) -> In (key, a) fs -> In (key, b) fs -> a = b.
Proof.
  induction fs as [|[k0 v0] fs IH]; intros Hd Ha Hb; [destruct Ha|].
  simpl in Hd. inversion Hd as [|? ? Hk Hd']; subst.
  destruct Ha as [Ha|Ha], Hb as [Hb|Hb].
  - congruence.
  - inversion Ha; subst. exfalso. apply Hk. apply in_map_iff. exists (key, b). auto.
  - inversion Hb; subst. exfalso. apply Hk. apply in_map_iff. exists (key, a). auto.
  - exact (IH Hd' Ha Hb).
Qed.

Lemma set_field_same (key : string) (v : value) (n : node) :
  get_field key n = Some v -> NoDup (map fst (node_fields n)) -> set_field key v n = n.
Proof.
  intros Hg Hd. pose proof (get_field_In _ _ _ Hg) as Hin.
  destruct n as [k fs]. simpl in *. f_equal.
  rewrite <- (map_id fs) at 2. apply map_ext_in. intros [k0 v0] Hin0. simpl.
  destruct (String.eqb k0 key) eqn:E; [|reflexivity].
  apply String.eqb_eq in E. subst k0. f_equal. exact (NoDup_keys_In _ _ _ _ Hd Hin Hin0).
Qed.

Lemma leave_untouched (ptype : string) (n : node) :
  (node_type n = "Program" -> is_block_like ptype = true) ->
  (forall c, child c n -> node_type c <> "Program") ->
  NoDup (map fst (node_fields n)) -> leave ptype n = n.
Proof.
  intros Hp Hc Hd.
  assert (Hco : leave_coerce ptype n = n).
  { unfold leave_coerce. destruct (String.eqb (node_type n) "Program") eqn:E; [|reflexivity].
    apply String.eqb_eq in E. rewrite (Hp E). reflexivity. }
  rewrite leave_unfold, Hco.
  destruct (is_block_like (node_type n)); [|reflexivity].
  destruct (get_field "body" n) as [[| | | | |l]|] eqn:Hg; try reflexivity.
  rewrite flatten_body_id_helper.
  - exact (set_field_same _ _ _ Hg Hd).
  - apply Forall_forall. intros x Hx. apply Hc. apply get_field_In in Hg.
    eapply child_list_field; eauto.
Qed.

Lemma fields_size_node_In (fs : list (string * value)) (key : string) (c : node) :
  In (key, VNode c) fs -> node_size c <= fields_size fs.
Proof.
  induction fs as [|[k v] fs IH]; intros Hin; [destruct Hin|].
  destruct Hin as [Heq|Hin].
  - inversion Heq; subst. simpl. lia.
  - specialize (IH Hin). destruct v; simpl; lia.
Qed.

Lemma list_size_In (l : list node) (c : node) : In c l -> node_size c <= list_size l.
Proof.
  induction l as [|x l IH]; intros Hin; [destruct Hin|].
  rewrite list_size_cons. destruct Hin as [->|Hin]; [lia|]. specialize (IH Hin). lia.
Qed.

Lemma child_size (c n : node) : child c n -> node_size c < node_size n.
Proof.
  intros Hc. inversion Hc as [k fs key c0 Hin|k fs key l c0 Hin Hcl]; subst;
    rewrite node_size_Node.
  - pose proof (fields_size_node_In _ _ _ Hin). lia.
  - pose proof (fields_size_In _ _ _ Hin). pose proof (list_size_In _ _ Hcl). lia.
Qed.

Lemma visit_untouched (upper_set : scopes) (fuel : nat) : forall parent n s,
  everywhere untouched n ->
  (node_type n = "Program" -> match parent with Some p => is_block_like p = true | None => True end) ->
  node_size n < fuel -> visit upper_set fuel parent n s = Some (n, s).
Proof.
  induction fuel as [|f IH]; intros parent n s Hn Hp Hs; [lia|].
  destruct (everywhere_here _ _ Hn) as (Hm & Hseq & Hch & Hd).
  assert (He : enter upper_set f n s = Some (None, s)).
  { unfold enter. rewrite Hseq. apply apply_rules_no_match. exact Hm. }
  simpl. rewrite He. cbv zeta.
  destruct n as [k fs]. cbn [node_type node_fields] in *.
  rewrite (visit_fields_id _ k fs s).
  - f_equal. f_equal. apply leave_untouched; [|exact Hch|exact Hd].
    intros Hk. cbn [node_type] in Hk. specialize (Hp Hk). destruct parent; [exact Hp|].
    rewrite Hk. reflexivity.
  - intros c Hc s0. apply IH.
    + exact (everywhere_child _ _ _ Hn Hc).
    + intros Hcp. exfalso. exact (Hch c Hc Hcp).
    + pose proof (child_size _ _ Hc). lia.
Qed.

(** Code with nothing to rewrite is left as it is: when no rule matches
    anywhere, there is no comma statement and no [Program] below the root
    (and the fields of each node have distinct names), [rewriteCode]
    returns the tree unchanged and makes no renaming call. *)
Theorem rewrite_untouched_identity (upper_set : scopes) (fuel : nat) (ast : node) :
  everywhere untouched ast -> node_size ast < fuel ->
  rewriteCode upper_set fuel ast = Some (ast, []).
Proof.
  intros Hn Hs. apply visit_untouched; [exact Hn| |exact Hs]. intros _. exact I.
Qed.

(** A boolean check of [untouched]. *)
Fixpoint nodupb (l : list string) : bool :=
  match l with
  | [] => true
  | x :: l' => negb (existsb (String.eqb x) l') && nodupb l'
  end.

Definition children_not_programb (m : node) : bool :=
  forallb (fun kv => match snd kv with
                     | VNode c => negb (String.eqb (node_type c) "Program")
                     | VList l => forallb (fun c => negb (String.eqb (node_type c) "Program")) l
                     | _ => true
                     end) (node_fields m).

Definition untouchedb (m : node) : bool :=
  forallb (fun pr => match matches (fst pr) m with None => true | Some _ => false end)
          rewritePatterns &&
  negb (is_sequence_statement m) && children_not_programb m && nodupb (map fst (node_fields m)).

Lemma nodupb_sound (l : list string) : nodupb l = true -> NoDup l.
Proof.
  induction l as [|x l IH]; simpl; intros H; [constructor|].
  apply andb_prop in H as [Hx Hl]. constructor; [|exact (IH Hl)].
  intros Hin. assert (E : existsb (String.eqb x) l = true).
  { apply existsb_exists. exists x. split; [exact Hin|apply String.eqb_refl]. }
  rewrite E in Hx. discriminate.
Qed.

Lemma untouchedb_sound (m : node) : untouchedb m = true -> untouched m.
Proof.
  unfold untouchedb. intros H.
  apply andb_prop in H as [H Hd]. apply andb_prop in H as [H Hc].
  apply andb_prop in H as [Hm Hs].
  split; [|split; [|split]].
  - rewrite forallb_forall in Hm. apply Forall_forall. intros pr Hin. specialize (Hm pr Hin).
    destruct (matches (fst pr) m); [discriminate|reflexivity].
  - destruct (is_sequence_statement m); [discriminate|reflexivity].
  - intros c Hch. unfold children_not_programb in Hc. rewrite forallb_forall in Hc.
    inversion Hch as [k fs key c0 Hin|k fs key l c0 Hin Hcl]; subst; specialize (Hc _ Hin);
      simpl in Hc.
    + apply String.eqb_neq. destruct (String.eqb _ _); [discriminate|reflexivity].
    + rewrite forallb_forall in Hc. specialize (Hc c Hcl).
      apply String.eqb_neq. destruct (String.eqb _ _); [discriminate|reflexivity].
  - apply nodupb_sound. exact Hd.
Qed.

(** [var x; z;] *)
Definition untouched_example : node :=
  Program [VariableDeclaration "var" [VariableDeclarator (Identifier "x")];
           ExpressionStatement (Identifier "z")].

Lemma rewrite_untouched_identity_witness :
  everywhere untouched untouched_example /\ node_size untouched_example < 20 /\
  rewriteCode (fun _ => []) 20 untouched_example = Some (untouched_example, []).
Proof.
  assert (Hw : everywhere untouched untouched_example).
  { apply (everywhere_mono (fun m => untouchedb m = true)); [exact untouchedb_sound|].
    apply all_nodes_everywhere. vm_compute. reflexivity. }
  assert (Hs : node_size untouched_example < 20) by (vm_compute; lia).
  split; [exact Hw|]. split; [exact Hs|].
  exact (rewrite_untouched_identity (fun _ => []) 20 untouched_example Hw Hs).
Defined.

End RewriteMore.

(* ------------------------------------------------------------------ *)
(** ** More of the pattern engine, on the io.js tests *)

Module PatternMore.
Import NodeInd Patterns Fill MatchFacts PatternFacts TraversalFacts.
Local Open Scope list_scope.

Definition no_placeholder (m : node) : Prop := is_placeholder_kind (node_type m) = false.

(** Modelled from the spec (io.js test "should accept identical code
    regardless of whitespace"): a tree with no placeholder matches itself,
    binding nothing, whatever environment it is matched in. *)
Theorem matches_identical (n : node) :
  everywhere no_placeholder n -> (forall e, match_node n n e = Some e) /\ matches n n = Some [].
Proof.
  intros Hn. enough (H : forall e, match_node n n e = Some e) by (split; [exact H|apply H]).
  revert Hn. induction n as [k fs IH] using node_ind'. intros Hn e.
  rewrite match_node_Node by exact (everywhere_here _ _ Hn).
  cbv beta iota. rewrite String.eqb_refl.
  pose proof (everywhere_fields _ _ _ Hn) as Hf. clear Hn.
  revert e Hf. induction IH as [|[key v] fs Hv _ IHfs]; intros e Hf; [reflexivity|].
  inversion Hf as [|? ? Hv' Hf']; subst. cbn [match_fields]. rewrite String.eqb_refl.
  assert (Hmv : match_value v v e = Some e).
  { simpl in Hv, Hv'. destruct v; simpl.
    - rewrite String.eqb_refl. reflexivity.
    - rewrite Z.eqb_refl. reflexivity.
    - destruct b; reflexivity.
    - reflexivity.
    - exact (Hv Hv' e).
    - clear Hf IHfs Hf'. revert e. induction Hv as [|c l Hc _ IHl]; intros e; [reflexivity|].
      inversion Hv' as [|? ? Hc' Hl']; subst. simpl. rewrite (Hc Hc' e). exact (IHl Hl' e). }
  rewrite Hmv. exact (IHfs e Hf').
Qed.

(** [function sum(a, b) { return a + b; }] *)
Definition sum_example : node :=
  sum_with [ReturnStatement (BinaryExpression "+" (Identifier "a") (Identifier "b"))].

Lemma no_placeholder_sum_example : everywhere no_placeholder sum_example.
Proof.
  apply (everywhere_mono (fun m => negb (is_placeholder_kind (node_type m)) = true)).
  - intros m Hm. unfold no_placeholder. destruct (is_placeholder_kind _); [discriminate|reflexivity].
  - apply all_nodes_everywhere. vm_compute. reflexivity.
Qed.

Lemma matches_identical_witness :
  everywhere no_placeholder sum_example /\ matches sum_example sum_example = Some [].
Proof.
  split; [exact no_placeholder_sum_example|].
  exact (proj2 (matches_identical sum_example no_placeholder_sum_example)).
Defined.

(** Modelled from the spec (io.js test "should leave code without
    placeholders unchanged"): filling a template with no placeholder gives
    the template back, whatever the environment. *)
Theorem fill_no_placeholder (t : node) :
  everywhere no_placeholder t -> forall e, fill t e = Some t.
Proof.
  induction t as [k fs IH] using node_ind'. intros Ht e.
  rewrite fill_Node by exact (everywhere_here _ _ Ht).
  enough (H : fill_fields e fs = Some fs) by (rewrite H; reflexivity).
  pose proof (everywhere_fields _ _ _ Ht) as Hf. clear Ht.
  revert Hf. induction IH as [|[key v] fs Hv _ IHfs]; intros Hf; [reflexivity|].
  inversion Hf as [|? ? Hv' Hf']; subst. cbn [fill_fields]. rewrite (IHfs Hf').
  simpl in Hv, Hv'. destruct v; try reflexivity.
  - rewrite (Hv Hv' e). reflexivity.
  - enough (Hl : fill_list e l = Some l) by (rewrite Hl; reflexivity).
    clear Hf IHfs Hf'. induction Hv as [|c l Hc _ IHl]; [reflexivity|].
    inversion Hv' as [|? ? Hc' Hl']; subst. cbn [fill_list]. rewrite (Hc Hc' e), (IHl Hl').
    reflexivity.
Qed.

Lemma fill_no_placeholder_witness :
  everywhere no_placeholder sum_example /\ fill sum_example [] = Some sum_example.
Proof.
  split; [exact no_placeholder_sum_example|].
  exact (fill_no_placeholder sum_example no_placeholder_sum_example []).
Defined.

End PatternMore.

(* ------------------------------------------------------------------ *)
(** ** The rules never leave a placeholder unfilled *)

Module RuleMore.
Import NodeInd Patterns Fill Rewrite MatchFacts PatternFacts TraversalFacts RewriteMore.
Local Open Scope list_scope.

(** The placeholders [fill] looks up in a template: the key, and whether
    a name ([true]) or a subtree ([false]) is wanted. *)
Fixpoint ph_keys (t : node) : list (string * bool) :=
  match t with
  | Node k fs =>
      if String.eqb k "GenericPlaceholder" then [(str_field "name" t, true)]
      else if String.eqb k "StatementPlaceholder" || String.eqb k "ExpressionPlaceholder"
      then [(str_field "name" t, false)]
      else
        (fix fields_keys (fs : list (string * value)) : list (string * bool) :=
           match fs with
           | [] => []
           | (_, VNode c) :: fs' => ph_keys c ++ fields_keys fs'
           | (_, VList l) :: fs' =>
               (fix list_keys (l : list node) : list (string * bool) :=
                  match l with [] => [] | c :: l' => ph_keys c ++ list_keys l' end) l
               ++ fields_keys fs'
           | _ :: fs' => fields_keys fs'
           end) fs
  end.

Definition list_keys : list node -> list (string * bool) :=
  fix list_keys (l : list node) : list (string * bool) :=
    match l with [] => [] | c :: l' => ph_keys c ++ list_keys l' end.

Definition fields_keys : list (string * value) -> list (string * bool) :=
  fix fields_keys (fs : list (string * value)) : list (string * bool) :=
    match fs with
    | [] => []
    | (_, VNode c) :: fs' => ph_keys c ++ fields_keys fs'
    | (_, VList l) :: fs' => list_keys l ++ fields_keys fs'
    | _ :: fs' => fields_keys fs'
    end.

Lemma ph_keys_Node (k : string) (fs : list (string * value)) :
  is_placeholder_kind k = false -> ph_keys (Node k fs) = fields_keys fs.
Proof. intros Hph. split_placeholder_kind Hph. simpl. rewrite Hg, Hs, He. reflexivity. Qed.

(** [e] binds the key with the kind wanted. *)
Definition bound_kind (e : env) (kb : string * bool) : Prop :=
  match lookup (fst kb) e with
  | Some (BName _) => snd kb = true
  | Some (BNode _) => snd kb = false
  | None => False
  end.

Lemma bound_kind_le (e e' : env) (kb : string * bool) :
  env_le e e' -> bound_kind e kb -> bound_kind e' kb.
Proof.
  unfold bound_kind. intros Hle. destruct (lookup (fst kb) e) as [b|] eqn:Hl; [|contradiction].
  rewrite (Hle _ _ Hl). intros H; exact H.
Qed.

(** [fill] succeeds when every placeholder it looks up is bound with the
    right kind. *)
Lemma fill_total (t : node) : forall e,
  (forall kb, In kb (ph_keys t) -> bound_kind e kb) -> exists t', fill t e = Some t'.
Proof.
  induction t as [k fs IH] using node_ind'. intros e Hb.
  destruct (is_placeholder_kind k) eqn:Hph.
  - cbn [fill ph_keys] in *.
    destruct (String.eqb k "GenericPlaceholder") eqn:Hg.
    { specialize (Hb _ (or_introl eq_refl)). unfold bound_kind in Hb. simpl fst in Hb.
      destruct (lookup _ e) as [[s0|m0]|]; [eexists; reflexivity|discriminate|contradiction]. }
    destruct (String.eqb k "StatementPlaceholder" || String.eqb k "ExpressionPlaceholder") eqn:Hse.
    { specialize (Hb _ (or_introl eq_refl)). unfold bound_kind in Hb. simpl fst in Hb.
      destruct (lookup _ e) as [[s0|m0]|]; [discriminate|eexists; reflexivity|contradiction]. }
    unfold is_placeholder_kind in Hph. rewrite Hg in Hph. simpl in Hph.
    rewrite Hse in Hph. discriminate.
  - rewrite fill_Node by exact Hph. rewrite ph_keys_Node in Hb by exact Hph.
    enough (H : exists fs', fill_fields e fs = Some fs')
      by (destruct H as [fs' ->]; eexists; reflexivity).
    clear Hph. induction IH as [|[key v] fs Hv _ IHfs]; [exists []; reflexivity|].
    assert (Hb' : forall kb, In kb (fields_keys fs) -> bound_kind e kb).
    { intros kb Hkb. apply Hb. destruct v; simpl; auto using in_or_app. }
    destruct (IHfs Hb') as [fs' Hfs']. clear IHfs Hb'.
    destruct v; cbn [fill_fields]; rewrite ?Hfs'; try (eexists; reflexivity).
    + simpl in Hv. destruct (Hv e) as [c' Hc].
      { intros kb Hkb. apply Hb. simpl. apply in_or_app. left. exact Hkb. }
      rewrite Hc. eexists; reflexivity.
    + assert (Hl : exists l', fill_list e l = Some l').
      { assert (Hbl : forall kb, In kb (list_keys l) -> bound_kind e kb).
        { intros kb Hkb. apply Hb. simpl. apply in_or_app. left. exact Hkb. }
        clear Hb Hfs'. simpl in Hv. induction Hv as [|c l Hc _ IHl]; [exists []; reflexivity|].
        destruct (Hc e) as [c' Hc'].
        { intros kb Hkb. apply Hbl. simpl. apply in_or_app. left. exact Hkb. }
        destruct IHl as [l' Hl'].
        { intros kb Hkb. apply Hbl. simpl. apply in_or_app. right. exact Hkb. }
        cbn [fill_list]. rewrite Hc'. change (fill_list e l = Some l') in Hl'. rewrite Hl'.
        eexists; reflexivity. }
      destruct Hl as [l' Hl]. rewrite Hl. eexists; reflexivity.
Qed.

(** A successful match binds every placeholder of the pattern, with the
    kind of its family. *)
Lemma match_binds (p : node) : forall n e e', match_node p n e = Some e' ->
  forall kb, In kb (ph_keys p) -> bound_kind e' kb.
Proof.
  induction p as [pk pfs IH] using node_ind'. intros n e e' H kb Hkb.
  destruct (is_placeholder_kind pk) eqn:Hph.
  - cbn [match_node ph_keys] in H, Hkb.
    destruct (String.eqb pk "GenericPlaceholder") eqn:Hg.
    { destruct (String.eqb (node_type n) "Identifier"); [|discriminate].
      apply bind_spec in H as [_ Hl]. destruct Hkb as [<-|[]].
      unfold bound_kind. simpl fst. rewrite Hl. reflexivity. }
    destruct (String.eqb pk "StatementPlaceholder") eqn:Hs.
    { destruct (_ && _); [|discriminate].
      apply bind_spec in H as [_ Hl]. cbn [orb] in Hkb. destruct Hkb as [<-|[]].
      unfold bound_kind. simpl fst. rewrite Hl. reflexivity. }
    destruct (String.eqb pk "ExpressionPlaceholder") eqn:He.
    { destruct (_ || _); [|discriminate].
      apply bind_spec in H as [_ Hl]. cbn [orb] in Hkb. destruct Hkb as [<-|[]].
      unfold bound_kind. simpl fst. rewrite Hl. reflexivity. }
    unfold is_placeholder_kind in Hph. rewrite Hg, Hs, He in Hph. discriminate.
  - rewrite match_node_Node in H by exact Hph. rewrite ph_keys_Node in Hkb by exact Hph.
    destruct n as [nk nfs]. destruct (String.eqb pk nk); [|discriminate].
    clear Hph. revert nfs e H Hkb.
    induction IH as [|[k1 v1] pfs Hv _ IHfs]; intros [|[k2 v2] nfs] e H Hkb;
      simpl in H; try discriminate; [destruct Hkb|].
    destruct (String.eqb k1 k2); [|discriminate].
    destruct (match_value v1 v2 e) as [e1|] eqn:Hm; [|discriminate].
    assert (Hk : In kb (match v1 with VNode c => ph_keys c | VList l => list_keys l | _ => [] end)
                 \/ In kb (fields_keys pfs)).
    { destruct v1; simpl in Hkb; auto; apply in_app_or; exact Hkb. }
    destruct Hk as [Hk1|Hk2]; [|exact (IHfs _ _ H Hk2)].
    apply (bound_kind_le e1); [eapply match_fields_le; exact H|].
    destruct v1, v2; simpl in Hm, Hk1; try discriminate; try destruct Hk1.
    + exact (Hv _ _ _ Hm _ Hk1).
    + clear H IHfs Hkb. revert Hk1 l0 e Hm.
      induction Hv as [|c l Hc _ IHl]; intros Hk1 [|c' l'] e Hm;
        simpl in Hm, Hk1; try discriminate; try destruct Hk1.
      destruct (match_node c c' e) as [e2|] eqn:Hc'; [|discriminate].
      apply in_app_or in Hk1 as [Hk1|Hk1].
      * apply (bound_kind_le e2); [eapply match_list_le; exact Hm|].
        exact (Hc _ _ _ Hc' _ Hk1).
      * exact (IHl Hk1 _ _ Hm).
Qed.

(** Each rule's replacement only uses placeholders of its pattern, with
    the same kind. *)
Definition keys_covered (r p : node) : bool :=
  forallb (fun kb => existsb (fun kb' => String.eqb (fst kb) (fst kb') && Bool.eqb (snd kb) (snd kb'))
                             (ph_keys p))
          (ph_keys r).

Lemma rules_covered :
  Forall (fun pr => forall kb, In kb (ph_keys (snd pr)) -> In kb (ph_keys (fst pr))) rewritePatterns.
Proof.
  assert (H : forallb (fun pr => keys_covered (snd pr) (fst pr)) rewritePatterns = true)
    by (vm_compute; reflexivity).
  rewrite forallb_forall in H. apply Forall_forall. intros pr Hin kb Hkb.
  specialize (H pr Hin). unfold keys_covered in H. rewrite forallb_forall in H.
  specialize (H kb Hkb). apply existsb_exists in H as [[k' b'] [Hin' Heq]].
  apply andb_prop in Heq as [Hk Hb]. apply String.eqb_eq in Hk. apply Bool.eqb_prop in Hb.
  destruct kb as [k b]. simpl in Hk, Hb. subst. exact Hin'.
Qed.

Lemma rule_fill_succeeds (p r n : node) (env0 : env) :
  In (p, r) rewritePatterns -> matches p n = Some env0 -> exists x, fill r env0 = Some x.
Proof.
  intros Hin Hm. apply fill_total. intros kb Hkb.
  pose proof rules_covered as Hc. rewrite Forall_forall in Hc.
  exact (match_binds p n [] env0 Hm kb (Hc _ Hin kb Hkb)).
Qed.

Lemma apply_rules_fails (upper_set : scopes) (f : nat) (rules : list (node * node)) (n : node)
    (s : renames) :
  incl rules rewritePatterns -> apply_rules upper_set f rules n s = None ->
  node_type n = "FunctionDeclaration".
Proof.
  induction rules as [|[p r] rules IH]; simpl; intros Hincl H; [discriminate|].
  destruct (matches p n) as [env0|] eqn:Hm.
  - destruct (fill r env0) as [result|] eqn:Hf.
    + unfold replace_with in H.
      destruct (String.eqb (node_type n) "FunctionDeclaration") eqn:C; [|discriminate].
      apply String.eqb_eq. exact C.
    + destruct (rule_fill_succeeds p r n env0) as [x Hx];
        [apply Hincl; left; reflexivity|exact Hm|congruence].
  - apply IH; [|exact H]. intros pr Hpr. apply Hincl. right. exact Hpr.
Qed.

(** Filling the replacement of a matched rule never throws: the [enter]
    hook fails to return only at a function declaration (the renaming of
    the module-interop helper), never elsewhere. *)
Theorem enter_fails_only_on_functions (upper_set : scopes) (fuel : nat) (n : node) (s : renames) :
  enter upper_set fuel n s = None -> node_type n = "FunctionDeclaration".
Proof.
  unfold enter. destruct (is_sequence_statement n); [discriminate|].
  apply apply_rules_fails. apply incl_refl.
Qed.

Lemma enter_fails_only_on_functions_witness :
  enter (fun _ => ["n"; "_interopRequireDefault"; "_interopRequireDefault1"]) 5 helper_example []
    = None /\
  node_type helper_example = "FunctionDeclaration".
Proof.
  assert (H : enter (fun _ => ["n"; "_interopRequireDefault"; "_interopRequireDefault1"]) 5
                helper_example [] = None) by (vm_compute; reflexivity).
  split; [exact H|].
  exact (enter_fails_only_on_functions _ 5 helper_example [] H).
Defined.

End RuleMore.
